(** * SHA-256 / SHA-224 streaming engine of hash-wasm (sha256.c)

    A shallow embedding of [packages/hub/src/vendor/hash-wasm/sha256.c]
    and the properties of its three parts: the compression function
    [sha256_process_block], the incremental absorber [Hash_Update] and the
    finalizer [Hash_Final].

    Conventions.
    - A [uint32_t] / [uint64_t] value is a [Z] in [0, 2^32) / [0, 2^64);
      every C operation that can leave the range has its wrap-around
      written out ([u32], [u64]).
    - A byte is a [Z] in [0, 256).
    - The target is wasm32, whose linear memory is little-endian: a
      [uint32_t] array seen through a [uint8_t*] (and the other way round)
      is its little-endian memory image ([bytes_of_words], [words_of_bytes]).
      The code relies on this itself: it converts to the big-endian words of
      FIPS 180 with [bswap_32]. *)

From Stdlib Require Import ZArith List Lia Bool String Ascii.
From coqutil Require Import Z.bitblast.
Import ListNotations.
Local Open Scope Z_scope.

(** ** Machine integers *)

Definition u8 (x : Z) : Z := x mod 2 ^ 8.
Definition u32 (x : Z) : Z := x mod 2 ^ 32.
Definition u64 (x : Z) : Z := x mod 2 ^ 64.

Definition is_u8 (x : Z) : Prop := 0 <= x < 2 ^ 8.
Definition is_u32 (x : Z) : Prop := 0 <= x < 2 ^ 32.
Definition is_u64 (x : Z) : Prop := 0 <= x < 2 ^ 64.

(** [x << n] and [~x] on [uint32_t]. *)
Definition shl32 (x n : Z) : Z := u32 (Z.shiftl x n).
Definition not32 (x : Z) : Z := Z.lxor x 0xFFFFFFFF.

(** ** Arrays *)

(** [a[n]] and [a[n] = v] on an array held as a list. *)
Definition get (a : list Z) (n : nat) : Z := nth n a 0.

Fixpoint upd (n : nat) (v : Z) (a : list Z) : list Z :=
  match a, n with
  | [], _ => []
  | _ :: t, O => v :: t
  | x :: t, S k => x :: upd k v t
  end.

(** ** Little-endian memory images *)

Definition word_bytes (w : Z) : list Z :=
  [Z.land w 255; Z.land (Z.shiftr w 8) 255;
   Z.land (Z.shiftr w 16) 255; Z.land (Z.shiftr w 24) 255].

Definition bytes_word (b0 b1 b2 b3 : Z) : Z :=
  Z.lor (Z.lor b0 (Z.shiftl b1 8)) (Z.lor (Z.shiftl b2 16) (Z.shiftl b3 24)).

(** The bytes of a [uint32_t] array, lowest address first. *)
Definition bytes_of_words (ws : list Z) : list Z := flat_map word_bytes ws.

(** The [uint32_t] view of a byte region whose length is a multiple of 4. *)
Fixpoint words_of_bytes (bs : list Z) : list Z :=
  match bs with
  | b0 :: b1 :: b2 :: b3 :: t => bytes_word b0 b1 b2 b3 :: words_of_bytes t
  | _ => []
  end.

(** [*((uint8_t* )a + i) = v] for a [uint32_t] array [a]. *)
Definition store8 (a : list Z) (i : nat) (v : Z) : list Z :=
  words_of_bytes (upd i v (bytes_of_words a)).

(** [*((uint8_t* )a + i)] for a [uint32_t] array [a]. *)
Definition load8 (a : list Z) (i : nat) : Z := get (bytes_of_words a) i.

(** ** sha256.c: constants and macros *)

Definition MAIN_BUFFER_SIZE : Z := 8 * 1024 * 1024.
Definition sha256_block_size : Z := 64.
Definition sha256_hash_size : Z := 32.
Definition sha224_hash_size : Z := 28.

Definition ROTR32 (dword n : Z) : Z :=
  Z.lxor (Z.shiftr dword n) (shl32 dword (32 - n)).

(** [__builtin_bswap32]. *)
Definition bswap_32 (x : Z) : Z :=
  Z.lor (Z.lor (Z.shiftl (Z.land x 0xFF) 24) (Z.shiftl (Z.land x 0xFF00) 8))
        (Z.lor (Z.land (Z.shiftr x 8) 0xFF00) (Z.land (Z.shiftr x 24) 0xFF)).

(** The round constants, eight to a row: [rhash_k256[8 * r + j]]. *)
Definition rhash_k256 : list Z :=
  [ 0x428a2f98; 0x71374491; 0xb5c0fbcf; 0xe9b5dba5;
    0x3956c25b; 0x59f111f1; 0x923f82a4; 0xab1c5ed5 ] ++
  [ 0xd807aa98; 0x12835b01; 0x243185be; 0x550c7dc3;
    0x72be5d74; 0x80deb1fe; 0x9bdc06a7; 0xc19bf174 ] ++
  [ 0xe49b69c1; 0xefbe4786; 0x0fc19dc6; 0x240ca1cc;
    0x2de92c6f; 0x4a7484aa; 0x5cb0a9dc; 0x76f988da ] ++
  [ 0x983e5152; 0xa831c66d; 0xb00327c8; 0xbf597fc7;
    0xc6e00bf3; 0xd5a79147; 0x06ca6351; 0x14292967 ] ++
  [ 0x27b70a85; 0x2e1b2138; 0x4d2c6dfc; 0x53380d13;
    0x650a7354; 0x766a0abb; 0x81c2c92e; 0x92722c85 ] ++
  [ 0xa2bfe8a1; 0xa81a664b; 0xc24b8b70; 0xc76c51a3;
    0xd192e819; 0xd6990624; 0xf40e3585; 0x106aa070 ] ++
  [ 0x19a4c116; 0x1e376c08; 0x2748774c; 0x34b0bcb5;
    0x391c0cb3; 0x4ed8aa4a; 0x5b9cca4f; 0x682e6ff3 ] ++
  [ 0x748f82ee; 0x78a5636f; 0x84c87814; 0x8cc70208;
    0x90befffa; 0xa4506ceb; 0xbef9a3f7; 0xc67178f2 ].

(** Optimized version of Ch(x,y,z)=((x & y) | (~x & z)) *)
Definition Ch (x y z : Z) : Z := Z.lxor z (Z.land x (Z.lxor y z)).
(** Optimized version of Maj(x,y,z)=((x & y) ^ (x & z) ^ (y & z)) *)
Definition Maj (x y z : Z) : Z := Z.lxor (Z.land x y) (Z.land z (Z.lxor x y)).

Definition Sigma0 (x : Z) : Z :=
  Z.lxor (Z.lxor (ROTR32 x 2) (ROTR32 x 13)) (ROTR32 x 22).
Definition Sigma1 (x : Z) : Z :=
  Z.lxor (Z.lxor (ROTR32 x 6) (ROTR32 x 11)) (ROTR32 x 25).
Definition sigma0 (x : Z) : Z :=
  Z.lxor (Z.lxor (ROTR32 x 7) (ROTR32 x 18)) (Z.shiftr x 3).
Definition sigma1 (x : Z) : Z :=
  Z.lxor (Z.lxor (ROTR32 x 17) (ROTR32 x 19)) (Z.shiftr x 10).

(** [(n - d) & 15] for the [int] index [n] of the circular buffer. *)
Definition circ (n d : Z) : nat := Z.to_nat (Z.land (n - d) 15).

(** [RECALCULATE_W(W, n)]: the buffer after [W[n] += ...]; the value of the
    C expression is the new [W[n]]. *)
Definition RECALCULATE_W (W : list Z) (n : nat) : list Z :=
  upd n (u32 (get W n +
              (sigma1 (get W (circ (Z.of_nat n) 2)) + get W (circ (Z.of_nat n) 7)
               + sigma0 (get W (circ (Z.of_nat n) 15))))) W.

(** The eight working variables [A .. H] of [sha256_process_block]; the
    macro [ROUND] is handed them in a different order at every call and
    assigns to two of them. *)
Inductive var := vA | vB | vC | vD | vE | vF | vG | vH.

Record regs := Regs { rA : Z; rB : Z; rC : Z; rD : Z; rE : Z; rF : Z; rG : Z; rH : Z }.

Definition rd (x : var) (r : regs) : Z :=
  match x with
  | vA => rA r | vB => rB r | vC => rC r | vD => rD r
  | vE => rE r | vF => rF r | vG => rG r | vH => rH r
  end.

Definition wr (x : var) (v : Z) (r : regs) : regs :=
  let 'Regs a b c d e f g h := r in
  match x with
  | vA => Regs v b c d e f g h | vB => Regs a v c d e f g h
  | vC => Regs a b v d e f g h | vD => Regs a b c v e f g h
  | vE => Regs a b c d v f g h | vF => Regs a b c d e v g h
  | vG => Regs a b c d e f v h | vH => Regs a b c d e f g v
  end.

(** [ROUND(a, b, c, d, e, f, g, h, k, data)]:
    [T1 = h + Sigma1(e) + Ch(e, f, g) + k + data; d += T1;
     h = T1 + Sigma0(a) + Maj(a, b, c)]. *)
Definition ROUND (a b c d e f g h : var) (k data : Z) (r : regs) : regs :=
  let T1 := u32 (rd h r + Sigma1 (rd e r) + Ch (rd e r) (rd f r) (rd g r) + k + data) in
  let r := wr d (u32 (rd d r + T1)) r in
  wr h (u32 (T1 + Sigma0 (rd a r) + Maj (rd a r) (rd b r) (rd c r))) r.

(** The locals of [sha256_process_block] that the rounds change: the
    working variables and the 16-word circular buffer [W]. *)
Definition locals : Type := regs * list Z.

(** [ROUND_1_16]: data is [W[n] = bswap_32(block[n])]. *)
Definition ROUND_1_16 (block : list Z) (a b c d e f g h : var) (n : nat)
    (s : locals) : locals :=
  let W := upd n (bswap_32 (get block n)) (snd s) in
  (ROUND a b c d e f g h (get rhash_k256 n) (get W n) (fst s), W).

(** [ROUND_17_64]: data is [RECALCULATE_W(W, n)], the constant is [k[n]]
    where [k] points at [rhash_k256[i]]. *)
Definition ROUND_17_64 (i : nat) (a b c d e f g h : var) (n : nat)
    (s : locals) : locals :=
  let W := RECALCULATE_W (snd s) n in
  (ROUND a b c d e f g h (get rhash_k256 (i + n)) (get W n) (fst s), W).

Definition rounds_1_16 (block : list Z) (s : locals) : locals :=
  let s := ROUND_1_16 block vA vB vC vD vE vF vG vH 0 s in
  let s := ROUND_1_16 block vH vA vB vC vD vE vF vG 1 s in
  let s := ROUND_1_16 block vG vH vA vB vC vD vE vF 2 s in
  let s := ROUND_1_16 block vF vG vH vA vB vC vD vE 3 s in
  let s := ROUND_1_16 block vE vF vG vH vA vB vC vD 4 s in
  let s := ROUND_1_16 block vD vE vF vG vH vA vB vC 5 s in
  let s := ROUND_1_16 block vC vD vE vF vG vH vA vB 6 s in
  let s := ROUND_1_16 block vB vC vD vE vF vG vH vA 7 s in
  let s := ROUND_1_16 block vA vB vC vD vE vF vG vH 8 s in
  let s := ROUND_1_16 block vH vA vB vC vD vE vF vG 9 s in
  let s := ROUND_1_16 block vG vH vA vB vC vD vE vF 10 s in
  let s := ROUND_1_16 block vF vG vH vA vB vC vD vE 11 s in
  let s := ROUND_1_16 block vE vF vG vH vA vB vC vD 12 s in
  let s := ROUND_1_16 block vD vE vF vG vH vA vB vC 13 s in
  let s := ROUND_1_16 block vC vD vE vF vG vH vA vB 14 s in
  ROUND_1_16 block vB vC vD vE vF vG vH vA 15 s.

(** The body of the [for (i = 16, k = &rhash_k256[16]; i < 64; ...)] loop. *)
Definition rounds_17_64 (s : locals) (i : nat) : locals :=
  let s := ROUND_17_64 i vA vB vC vD vE vF vG vH 0 s in
  let s := ROUND_17_64 i vH vA vB vC vD vE vF vG 1 s in
  let s := ROUND_17_64 i vG vH vA vB vC vD vE vF 2 s in
  let s := ROUND_17_64 i vF vG vH vA vB vC vD vE 3 s in
  let s := ROUND_17_64 i vE vF vG vH vA vB vC vD 4 s in
  let s := ROUND_17_64 i vD vE vF vG vH vA vB vC 5 s in
  let s := ROUND_17_64 i vC vD vE vF vG vH vA vB 6 s in
  let s := ROUND_17_64 i vB vC vD vE vF vG vH vA 7 s in
  let s := ROUND_17_64 i vA vB vC vD vE vF vG vH 8 s in
  let s := ROUND_17_64 i vH vA vB vC vD vE vF vG 9 s in
  let s := ROUND_17_64 i vG vH vA vB vC vD vE vF 10 s in
  let s := ROUND_17_64 i vF vG vH vA vB vC vD vE 11 s in
  let s := ROUND_17_64 i vE vF vG vH vA vB vC vD 12 s in
  let s := ROUND_17_64 i vD vE vF vG vH vA vB vC 13 s in
  let s := ROUND_17_64 i vC vD vE vF vG vH vA vB 14 s in
  ROUND_17_64 i vB vC vD vE vF vG vH vA 15 s.

(** [sha256_process_block(hash, block)]: the new contents of [hash]. The
    loop header [i = 16; i < 64; i += 16] runs the body for 16, 32, 48. *)
Definition sha256_process_block (hash block : list Z) : list Z :=
  let r := Regs (get hash 0) (get hash 1) (get hash 2) (get hash 3)
                (get hash 4) (get hash 5) (get hash 6) (get hash 7) in
  let s := rounds_1_16 block (r, repeat 0 16%nat) in
  let s := fold_left rounds_17_64 [16; 32; 48]%nat s in
  let r := fst s in
  [ u32 (get hash 0 + rA r); u32 (get hash 1 + rB r);
    u32 (get hash 2 + rC r); u32 (get hash 3 + rD r);
    u32 (get hash 4 + rE r); u32 (get hash 5 + rF r);
    u32 (get hash 6 + rG r); u32 (get hash 7 + rH r) ].

(** ** sha256.c: the context and the exported functions *)

Record sha256_ctx := Ctx {
  ctx_message : list Z;      (* uint32_t message[16]: 512-bit buffer for leftovers *)
  ctx_length : Z;            (* uint64_t length: number of processed bytes *)
  ctx_hash : list Z;         (* uint32_t hash[8]: internal hashing state *)
  ctx_digest_length : Z      (* uint32_t digest_length: digest length in bytes *)
}.

(** The two global objects the exported functions work on: the staging
    buffer [main_buffer] (an array of [MAIN_BUFFER_SIZE] bytes, here the map
    from index to byte) and the single context [sctx] that [ctx] points to. *)
Record globals := Globals {
  main_buffer : nat -> Z;
  sctx : sha256_ctx
}.

Definition SHA256_H0 : list Z :=
  [ 0x6a09e667; 0xbb67ae85; 0x3c6ef372; 0xa54ff53a;
    0x510e527f; 0x9b05688c; 0x1f83d9ab; 0x5be0cd19 ].

Definition SHA224_H0 : list Z :=
  [ 0xc1059ed8; 0x367cd507; 0x3070dd17; 0xf70e5939;
    0xffc00b31; 0x68581511; 0x64f98fa7; 0xbefa4fa4 ].

(** [for (uint8_t i = 0; i < 8; i += 2)
      *(uint64_t* )&ctx->hash[i] = *(uint64_t* )&H0[i];]
    each 64-bit move carries the two words [i] and [i + 1]. *)
Definition copy_h0 (H0 hash : list Z) : list Z :=
  fold_left (fun h i => upd (i + 1) (get H0 (i + 1)) (upd i (get H0 i) h))
            [0; 2; 4; 6]%nat hash.

Definition sha256_init (c : sha256_ctx) : sha256_ctx :=
  Ctx (ctx_message c) 0 (copy_h0 SHA256_H0 (ctx_hash c)) sha256_hash_size.

Definition sha224_init (c : sha256_ctx) : sha256_ctx :=
  Ctx (ctx_message c) 0 (copy_h0 SHA224_H0 (ctx_hash c)) sha224_hash_size.

(** [Hash_Init(bits)]: the returned value and the new globals. *)
Definition Hash_Init (bits : Z) (g : globals) : Z * globals :=
  if bits =? 224
  then (0, Globals (main_buffer g) (sha224_init (sctx g)))
  else (0, Globals (main_buffer g) (sha256_init (sctx g))).

(** [for (uint8_t i = 0; i < n; i++) *(message8 + index + i) = msg[i];]
    with [msg] the offset of the read pointer in [main_buffer]. *)
Definition copy_in (buf : nat -> Z) (msg index n : nat) (message : list Z) : list Z :=
  fold_left (fun m i => store8 m (index + i) (buf (msg + i)%nat)) (seq 0 n) message.

(** [(uint32_t* )msg]: the sixteen words that start at offset [msg]. *)
Definition block_at (buf : nat -> Z) (msg : nat) : list Z :=
  words_of_bytes (map (fun i => buf (msg + i)%nat) (seq 0 64)).

(** [while (size >= sha256_block_size) { sha256_process_block(ctx->hash, msg);
      msg += sha256_block_size; size -= sha256_block_size; }]
    The result is the hash, the read pointer and the size on exit. *)
Fixpoint full_blocks (fuel : nat) (buf : nat -> Z) (hash : list Z) (msg : nat)
    (size : Z) : list Z * nat * Z :=
  match fuel with
  | O => (hash, msg, size)
  | S fuel' =>
      if sha256_block_size <=? size
      then full_blocks fuel' buf (sha256_process_block hash (block_at buf msg))
             (msg + 64)%nat (size - sha256_block_size)
      else (hash, msg, size)
  end.

(** The part of [Hash_Update] after the partial block: whole blocks straight
    from the buffer, then the leftovers into [ctx->message]. The loop runs
    [size / 64] times, which is the fuel it is given. *)
Definition update_rest (buf : nat -> Z) (c : sha256_ctx) (msg : nat) (size : Z)
    : sha256_ctx :=
  let '(hash, msg, size) :=
    full_blocks (Z.to_nat (size / 64)) buf (ctx_hash c) msg size in
  let message :=
    if size =? 0 then ctx_message c
    else copy_in buf msg 0 (Z.to_nat size) (ctx_message c) in
  Ctx message (ctx_length c) hash (ctx_digest_length c).

(** [Hash_Update(size)] *)
Definition Hash_Update (size : Z) (g : globals) : globals :=
  let buf := main_buffer g in
  let c := sctx g in
  let index := Z.land (u32 (ctx_length c)) 63 in
  let c := Ctx (ctx_message c) (u64 (ctx_length c + size)) (ctx_hash c)
               (ctx_digest_length c) in
  if index =? 0 then Globals buf (update_rest buf c 0 size)
  else
    let left := sha256_block_size - index in
    let end_ := if size <? left then size else left in
    let message := copy_in buf 0 (Z.to_nat index) (Z.to_nat end_) (ctx_message c) in
    let c := Ctx message (ctx_length c) (ctx_hash c) (ctx_digest_length c) in
    if size <? left then Globals buf c
    else
      let c := Ctx message (ctx_length c)
                   (sha256_process_block (ctx_hash c) message)
                   (ctx_digest_length c) in
      Globals buf (update_rest buf c (Z.to_nat left) (size - left)).

(** [while (index < to) ctx->message[index++] = 0;] *)
Definition zero_fill (index to : nat) (message : list Z) : list Z :=
  fold_left (fun m i => upd i 0 m) (seq index (to - index)) message.

(** [for (int32_t i = 7; i >= 0; i--) ctx->hash[i] = bswap_32(ctx->hash[i]);] *)
Definition bswap_hash (hash : list Z) : list Z :=
  fold_left (fun h i => upd i (bswap_32 (get h i)) h) [7; 6; 5; 4; 3; 2; 1; 0]%nat hash.

(** [for (uint8_t i = 0; i < ctx->digest_length; i++)
      main_buffer[i] = *(((uint8_t* )ctx->hash) + i);]
    The 8-bit counter is exact for every digest length the code ever
    stores (0 in the zero-initialised context, 28 and 32). *)
Definition write_digest (hash : list Z) (digest_length : nat) (buf : nat -> Z)
    : nat -> Z :=
  fold_left (fun b i => fun j => if (j =? i)%nat then load8 hash i else b j)
            (seq 0 digest_length) buf.

(** The first part of [Hash_Final]: the message buffer with the padding in
    place and the hash after the extra compression, if one is needed. *)
Definition final_pad (c : sha256_ctx) : list Z * list Z :=
  let index := Z.shiftr (Z.land (u32 (ctx_length c)) 63) 2 in
  let shift := Z.land (u32 (ctx_length c)) 3 * 8 in
  let i := Z.to_nat index in
  let message := ctx_message c in
  let message := upd i (Z.land (get message i) (not32 (shl32 0xFFFFFFFF shift))) message in
  let message := upd i (Z.lxor (get message i) (shl32 0x80 shift)) message in
  let index := index + 1 in
  let '(message, hash, index) :=
    if 14 <? index
    then
      let message := zero_fill (Z.to_nat index) 16 message in
      (message, sha256_process_block (ctx_hash c) message, 0)
    else (message, ctx_hash c, index) in
  let message := zero_fill (Z.to_nat index) 14 message in
  let message := upd 14 (bswap_32 (u32 (Z.shiftr (ctx_length c) 29))) message in
  let message := upd 15 (bswap_32 (u32 (u64 (Z.shiftl (ctx_length c) 3)))) message in
  (message, hash).

(** [Hash_Final()] *)
Definition Hash_Final (g : globals) : globals :=
  let c := sctx g in
  let '(message, hash) := final_pad c in
  let hash := sha256_process_block hash message in
  let hash := bswap_hash hash in
  Globals (write_digest hash (Z.to_nat (ctx_digest_length c)) (main_buffer g))
          (Ctx message (ctx_length c) hash (ctx_digest_length c)).

(** ** The host side of the interface

    The caller places a chunk at the start of the buffer returned by
    [Hash_GetBuffer] and passes its length to [Hash_Update]; after
    [Hash_Final] it reads [digest_length] bytes back from the same place. *)

Definition host_write (data : list Z) (g : globals) : globals :=
  Globals (fun i => if (i <? List.length data)%nat then get data i else main_buffer g i)
          (sctx g).

Definition init (bits : Z) (g : globals) : globals := snd (Hash_Init bits g).

Definition update (data : list Z) (g : globals) : globals :=
  Hash_Update (Z.of_nat (List.length data)) (host_write data g).

Definition updates (chunks : list (list Z)) (g : globals) : globals :=
  fold_left (fun g c => update c g) chunks g.

Definition digest (g : globals) : list Z :=
  map (main_buffer g) (seq 0 (Z.to_nat (ctx_digest_length (sctx g)))).

Definition final (g : globals) : list Z := digest (Hash_Final g).

(** The zero-initialised module instance (C static storage). *)
Definition boot : globals :=
  Globals (fun _ => 0) (Ctx (repeat 0 16%nat) 0 (repeat 0 8%nat) 0).

(** Hexadecimal rendering of a digest. *)
Definition hex_digit (n : Z) : ascii :=
  nth (Z.to_nat n) (list_ascii_of_string "0123456789abcdef") "?"%char.

Fixpoint hex (bs : list Z) : string :=
  match bs with
  | [] => EmptyString
  | b :: t => String (hex_digit (b / 16)) (String (hex_digit (b mod 16)) (hex t))
  end.

Definition abc : list Z := [97; 98; 99].

(** ** sha256.c: the memory helpers

    The static helpers at the head of the file, on a byte-addressed memory.
    A pointer is an address; a 64-bit load followed by a 64-bit store moves
    eight bytes, all read before any is written. Each function returns
    [dst]; the result here is the memory it leaves. *)

Definition memory : Type := nat -> Z.

Definition poke (mem : memory) (a : nat) (v : Z) : memory :=
  fun j => if (j =? a)%nat then v else mem j.

(** [while (cnt) { *(destination++) = *(source++); --cnt; }] *)
Fixpoint memcpy (mem : memory) (destination source cnt : nat) : memory :=
  match cnt with
  | O => mem
  | S cnt' => memcpy (poke mem destination (mem source))
                     (S destination) (S source) cnt'
  end.

(** [while (cnt--) { *p++ = value; }] *)
Fixpoint memset (mem : memory) (p : nat) (value : Z) (cnt : nat) : memory :=
  match cnt with
  | O => mem
  | S cnt' => memset (poke mem p value) (S p) value cnt'
  end.

(** [*dst64 = *src64] *)
Definition move64 (mem : memory) (dst src : nat) : memory :=
  fun j => if ((dst <=? j) && (j <? dst + 8))%nat then mem (src + (j - dst))%nat
           else mem j.

(** [while (cnt >= 8) { *(destination64++) = *(source64++); cnt -= 8; }]
    with the memory, the two pointers and [cnt] on exit. *)
Fixpoint memcpy2_words (fuel : nat) (mem : memory) (destination64 source64 cnt : nat)
    : memory * nat * nat * nat :=
  match fuel with
  | O => (mem, destination64, source64, cnt)
  | S fuel' =>
      if (8 <=? cnt)%nat
      then memcpy2_words fuel' (move64 mem destination64 source64)
             (destination64 + 8) (source64 + 8) (cnt - 8)
      else (mem, destination64, source64, cnt)
  end.

(** [memcpy2]: eight bytes at a time, then the rest byte by byte. The
    first loop runs [cnt / 8] times. *)
Definition memcpy2 (mem : memory) (dst src cnt : nat) : memory :=
  let '(mem, destination, source, cnt) := memcpy2_words (cnt / 8) mem dst src cnt in
  memcpy mem destination source cnt.

(** [for (int i = 0; i < n; i++) dst64[i] = src64[i];] for [n] = 2, 4, 8:
    [memcpy16], [memcpy32], [memcpy64]. *)
Definition copy64s (n : nat) (mem : memory) (dst src : nat) : memory :=
  fold_left (fun m i => move64 m (dst + 8 * i) (src + 8 * i)) (seq 0 n) mem.

Definition memcpy16 : memory -> nat -> nat -> memory := copy64s 2.
Definition memcpy32 : memory -> nat -> nat -> memory := copy64s 4.
Definition memcpy64 : memory -> nat -> nat -> memory := copy64s 8.

(** [widen8to64]: [value | (value << 8) | (value << 16) | (value << 24)]
    is computed in [int] and then converted to [uint64_t]. For
    [value < 128] the [int] is not negative and the conversion keeps it;
    from 128 on the shift by 24 overflows [int], which C leaves undefined:
    the model is meant for [value < 128] only. *)
Definition widen8to64 (value : Z) : Z :=
  Z.lor (Z.lor (Z.lor value (Z.shiftl value 8)) (Z.shiftl value 16))
        (Z.shiftl value 24).

(** [dst64[i] = val]: the eight bytes of [val], lowest first. *)
Definition store64 (mem : memory) (a : nat) (val : Z) : memory :=
  fun j => if ((a <=? j) && (j <? a + 8))%nat
           then Z.land (Z.shiftr val (8 * Z.of_nat (j - a))) 255
           else mem j.

(** [memset16], [memset32], [memset64], [memset128]: [n] = 2, 4, 8, 16
    stores of [widen8to64(value)]. *)
Definition set64s (n : nat) (mem : memory) (dst : nat) (value : Z) : memory :=
  let val := widen8to64 value in
  fold_left (fun m i => store64 m (dst + 8 * i) val) (seq 0 n) mem.

Definition memset16 : memory -> nat -> Z -> memory := set64s 2.
Definition memset32 : memory -> nat -> Z -> memory := set64s 4.
Definition memset64 : memory -> nat -> Z -> memory := set64s 8.
Definition memset128 : memory -> nat -> Z -> memory := set64s 16.

(** ** The compression function as the specification words it

    Section 4.1 of the specification: the block is read as sixteen
    big-endian words, the schedule [W[0..63]] is materialised in full, the
    sixty-four rounds rotate the eight working variables, and the result is
    added back into the state. Nothing here is taken from the C code. *)
Module Fips.

Definition add32 (x y : Z) : Z := (x + y) mod 2 ^ 32.

Definition rotr (x n : Z) : Z :=
  Z.lor (Z.shiftr x n) ((Z.shiftl x (32 - n)) mod 2 ^ 32).

Definition s0 (x : Z) : Z := Z.lxor (Z.lxor (rotr x 7) (rotr x 18)) (Z.shiftr x 3).
Definition s1 (x : Z) : Z := Z.lxor (Z.lxor (rotr x 17) (rotr x 19)) (Z.shiftr x 10).
Definition S0 (x : Z) : Z := Z.lxor (Z.lxor (rotr x 2) (rotr x 13)) (rotr x 22).
Definition S1 (x : Z) : Z := Z.lxor (Z.lxor (rotr x 6) (rotr x 11)) (rotr x 25).
Definition ch (x y z : Z) : Z := Z.lxor (Z.land x y) (Z.land (Z.lnot x) z).
Definition maj (x y z : Z) : Z :=
  Z.lxor (Z.lxor (Z.land x y) (Z.land x z)) (Z.land y z).

(** Step 1: sixteen big-endian words. *)
Fixpoint be_words (block : list Z) : list Z :=
  match block with
  | b0 :: b1 :: b2 :: b3 :: t =>
      (b0 * 2 ^ 24 + b1 * 2 ^ 16 + b2 * 2 ^ 8 + b3) :: be_words t
  | _ => []
  end.

(** Step 2: [W[n] = s1(W[n-2]) + W[n-7] + s0(W[n-15]) + W[n-16]]. *)
Definition next_w (W : list Z) : Z :=
  let n := List.length W in
  add32 (add32 (add32 (s1 (get W (n - 2))) (get W (n - 7)))
               (s0 (get W (n - 15))))
        (get W (n - 16)).

Fixpoint extend (k : nat) (W : list Z) : list Z :=
  match k with
  | O => W
  | S k' => extend k' (W ++ [next_w W])
  end.

Definition schedule (block : list Z) : list Z := extend 48 (be_words block).

(** Step 4: one round and the rotation of the register. *)
Definition work : Type := Z * Z * Z * Z * Z * Z * Z * Z.

Definition round (v : work) (k w : Z) : work :=
  let '(a, b, c, d, e, f, g, h) := v in
  let T1 := add32 (add32 (add32 (add32 h (S1 e)) (ch e f g)) k) w in
  let d' := add32 d T1 in
  let h' := add32 (add32 T1 (S0 a)) (maj a b c) in
  (h', a, b, c, d', e, f, g).

Definition rounds (W : list Z) (t : nat) (v : work) : work :=
  fold_left (fun v t => round v (get rhash_k256 t) (get W t)) (seq 0 t) v.

(** Steps 3 and 5. *)
Definition compress (state block : list Z) : list Z :=
  let v := (get state 0, get state 1, get state 2, get state 3,
            get state 4, get state 5, get state 6, get state 7) in
  let '(a, b, c, d, e, f, g, h) := rounds (schedule block) 64 v in
  [ add32 (get state 0) a; add32 (get state 1) b; add32 (get state 2) c;
    add32 (get state 3) d; add32 (get state 4) e; add32 (get state 5) f;
    add32 (get state 6) g; add32 (get state 7) h ].

End Fips.

(** ** What the engine computes, as functions of the whole message *)

(** The compression of one 64-byte block lying in memory. *)
Definition compress (hash block : list Z) : list Z :=
  sha256_process_block hash (words_of_bytes block).

(** The first [n] 64-byte blocks of a byte sequence. *)
Fixpoint blocks (n : nat) (bs : list Z) : list (list Z) :=
  match n with
  | O => []
  | S n' => firstn 64 bs :: blocks n' (skipn 64 bs)
  end.

(** The hash state after every completed 64-byte block of [m] has been
    compressed once, in order, and the bytes of [m] after the last
    completed block. *)
Definition hash_blocks (hash m : list Z) : list Z :=
  fold_left compress (blocks (List.length m / 64) m) hash.

Definition pending (m : list Z) : list Z :=
  skipn (64 * (List.length m / 64)) m.

(** A 64-bit integer as eight bytes, most significant first. *)
Definition be64 (x : Z) : list Z :=
  [ (x / 2 ^ 56) mod 256; (x / 2 ^ 48) mod 256; (x / 2 ^ 40) mod 256;
    (x / 2 ^ 32) mod 256; (x / 2 ^ 24) mod 256; (x / 2 ^ 16) mod 256;
    (x / 2 ^ 8) mod 256; x mod 256 ].

(** The number of zero bytes after [0x80] that brings [L + 1] bytes to
    56 modulo 64. *)
Definition zero_pad (L : nat) : nat := Z.to_nat ((55 - Z.of_nat L) mod 64).

(** The padded tail: the pending bytes, [0x80], zeros, and the bit count
    [8 * total] of the 64-bit counter in big-endian order. *)
Definition padded (tail : list Z) (total : Z) : list Z :=
  tail ++ [0x80] ++ repeat 0 (zero_pad (List.length tail))
       ++ be64 ((8 * total) mod 2 ^ 64).

(** A word as four bytes, most significant first, and the state so
    serialised. *)
Definition be_bytes (w : Z) : list Z :=
  [ (w / 2 ^ 24) mod 256; (w / 2 ^ 16) mod 256; (w / 2 ^ 8) mod 256; w mod 256 ].

Definition serialize (hash : list Z) : list Z := flat_map be_bytes hash.

(** The digest of a message [m] from initial constants [h0], truncated to
    [len] bytes. *)
Definition sha2 (h0 : list Z) (len : nat) (m : list Z) : list Z :=
  firstn len
    (serialize
       (hash_blocks (hash_blocks h0 m)
          (padded (pending m) (Z.of_nat (List.length m) mod 2 ^ 64)))).

Definition H0_of (bits : Z) : list Z :=
  if bits =? 224 then SHA224_H0 else SHA256_H0.

Definition digest_length_of (bits : Z) : Z :=
  if bits =? 224 then sha224_hash_size else sha256_hash_size.

(** ** Well-formed states *)

(** The C types of the context: sixteen and eight 32-bit words, a 64-bit
    counter. *)
Definition wf_ctx (c : sha256_ctx) : Prop :=
  List.length (ctx_message c) = 16%nat /\ Forall is_u32 (ctx_message c) /\
  is_u64 (ctx_length c) /\
  List.length (ctx_hash c) = 8%nat /\ Forall is_u32 (ctx_hash c).

(** A chunk the host can hand over in one call: bytes, and no more of them
    than the staging buffer holds. *)
Definition chunk_ok (data : list Z) : Prop :=
  Forall is_u8 data /\ Z.of_nat (List.length data) <= MAIN_BUFFER_SIZE.

(** The state reached from [init] by absorbing the message [m]. *)
Definition absorbed (bits : Z) (m : list Z) (c : sha256_ctx) : Prop :=
  let L := (List.length m mod 64)%nat in
  ctx_length c = Z.of_nat (List.length m) mod 2 ^ 64 /\
  ctx_hash c = hash_blocks (H0_of bits) m /\
  firstn L (bytes_of_words (ctx_message c)) = pending m /\
  ctx_digest_length c = digest_length_of bits.

(** The buffer holds [data] from offset 0. *)
Definition holds (buf : nat -> Z) (data : list Z) : Prop :=
  forall i, (i < List.length data)%nat -> buf i = get data i.

(** ** Support for the proof about the compression function *)

Definition work_ok (v : Fips.work) : Prop :=
  let '(a, b, c, d, e, f, g, h) := v in
  is_u32 a /\ is_u32 b /\ is_u32 c /\ is_u32 d /\
  is_u32 e /\ is_u32 f /\ is_u32 g /\ is_u32 h.

(** One call of [ROUND] on the working variables in their declared order. *)
Definition round_src (v : Fips.work) (k w : Z) : Fips.work :=
  let '(a, b, c, d, e, f, g, h) := v in
  let T1 := u32 (h + Sigma1 e + Ch e f g + k + w) in
  (u32 (T1 + Sigma0 a + Maj a b c), a, b, c, u32 (d + T1), e, f, g).

(** The role played by each variable shifts by one place per round. *)
Definition prev (x : var) : var :=
  match x with
  | vA => vH | vB => vA | vC => vB | vD => vC
  | vE => vD | vF => vE | vG => vF | vH => vG
  end.

Definition rho (n : nat) (x : var) : var := Nat.iter n prev x.

Definition view (n : nat) (r : regs) : Fips.work :=
  (rd (rho n vA) r, rd (rho n vB) r, rd (rho n vC) r, rd (rho n vD) r,
   rd (rho n vE) r, rd (rho n vF) r, rd (rho n vG) r, rd (rho n vH) r).

Definition ROUNDn (n : nat) : Z -> Z -> regs -> regs :=
  ROUND (rho n vA) (rho n vB) (rho n vC) (rho n vD)
        (rho n vE) (rho n vF) (rho n vG) (rho n vH).

(** The locals after [n] of the first sixteen rounds, against the full
    schedule [Wf] and the rounds of the specification from [v0]. *)
Definition inv0 (Wf : list Z) (v0 : Fips.work) (n : nat) (s : locals) : Prop :=
  List.length (snd s) = 16%nat /\
  (forall j, (j < n)%nat -> get (snd s) j = get Wf j) /\
  view n (fst s) = Fips.rounds Wf n v0.

(** The locals after [n] rounds of the loop iteration that starts at round
    [i]: the slots below [n] of the circular buffer hold the new words. *)
Definition inv (Wf : list Z) (v0 : Fips.work) (i n : nat) (s : locals) : Prop :=
  List.length (snd s) = 16%nat /\
  (forall j, (j < 16)%nat ->
     get (snd s) j = get Wf (if (j <? n)%nat then i + j else i + j - 16)) /\
  view n (fst s) = Fips.rounds Wf (i + n) v0.

(** ** Inputs used in examples *)

(** A full staging buffer of zero bytes. *)
Definition big_chunk : list Z := repeat 0 (Z.to_nat MAIN_BUFFER_SIZE).

(** The hexadecimal strings the specification gives for the empty message
    (as its canonical value) and for SHA-224 of "abc". *)
Definition spec_canonical_empty : string :=
  "e3b0c44298fc1c149afbf4c8996fb92427ae41e4649b934ca495991b7852b85".

Definition spec_sha224_abc : string :=
  "23097d223405d8228642a477bda255b32aadbce4bda0b3f7e36c9da".

(** ** The hash function as the specification words it

    Sections 4.2 and 4.3 of the specification: the message is followed by
    [0x80], by zero bytes up to 56 modulo 64 and by the bit length as a
    64-bit big-endian integer; the blocks are compressed in order by the
    specification's compression function, and the state is serialised
    big-endian and truncated. *)
Definition fips_pad (m : list Z) : list Z :=
  m ++ [0x80] ++ repeat 0 (zero_pad (List.length m))
    ++ be64 (8 * Z.of_nat (List.length m)).

Definition fips_digest (bits : Z) (m : list Z) : list Z :=
  firstn (Z.to_nat (digest_length_of bits))
    (serialize
       (fold_left Fips.compress
          (blocks (List.length (fips_pad m) / 64) (fips_pad m)) (H0_of bits))).
(** * Proofs *)

(** ** Arrays *)

Lemma upd_length n v a : List.length (upd n v a) = List.length a.
Proof. revert n; induction a; intros [|n]; simpl; auto. Qed.

Lemma get_upd_same n v a : (n < List.length a)%nat -> get (upd n v a) n = v.
Proof.
  unfold get. revert n; induction a; intros [|n]; simpl; intros; try lia; auto.
  apply IHa; lia.
Qed.

Lemma get_upd_other n m v a : n <> m -> get (upd n v a) m = get a m.
Proof.
  unfold get. revert n m; induction a; intros [|n] [|m]; simpl; intros;
    try congruence; auto.
Qed.

Lemma upd_split n v a :
  (n < List.length a)%nat -> upd n v a = firstn n a ++ v :: skipn (S n) a.
Proof.
  revert n; induction a; intros [|n]; simpl; intros; try lia; auto.
  f_equal. apply IHa. lia.
Qed.

(** ** Bits *)

Lemma testbit_high x k i : 0 <= x < 2 ^ k -> k <= i -> Z.testbit x i = false.
Proof.
  intros Hx Hi. destruct (Z.eq_dec x 0) as [->|]. { apply Z.testbit_0_l. }
  apply Z.bits_above_log2; [lia|].
  assert (0 <= k). { destruct (Z.le_gt_cases 0 k); auto. rewrite Z.pow_neg_r in Hx; lia. }
  assert (Z.log2 x < k); [|lia]. apply Z.log2_lt_pow2; lia.
Qed.

Lemma lor_shiftl_add a b k :
  0 <= a < 2 ^ k -> 0 <= k -> Z.lor a (Z.shiftl b k) = a + b * 2 ^ k.
Proof.
  intros Ha Hk. rewrite <- Z.shiftl_mul_pow2 by lia.
  assert (Hd : Z.land a (Z.shiftl b k) = 0).
  { Z.bitblast. destruct (Z.lt_ge_cases i k).
    - rewrite (Z.testbit_neg_r b l) by lia. apply andb_false_r.
    - rewrite (testbit_high a k i) by lia. reflexivity. }
  rewrite <- Z.lxor_lor by exact Hd. symmetry. apply Z.add_nocarry_lxor, Hd.
Qed.

Lemma bytes_word_sum b0 b1 b2 b3 :
  is_u8 b0 -> is_u8 b1 -> is_u8 b2 -> is_u8 b3 ->
  bytes_word b0 b1 b2 b3 = b0 + b1 * 2 ^ 8 + b2 * 2 ^ 16 + b3 * 2 ^ 24.
Proof.
  unfold is_u8, bytes_word. intros.
  replace (Z.lor (Z.shiftl b2 16) (Z.shiftl b3 24))
    with (Z.shiftl (Z.lor b2 (Z.shiftl b3 8)) 16)
    by (rewrite Z.shiftl_lor, Z.shiftl_shiftl by lia; reflexivity).
  rewrite (lor_shiftl_add b0), (lor_shiftl_add b2) by lia.
  rewrite lor_shiftl_add by lia. lia.
Qed.

Lemma word_bytes_arith w :
  word_bytes w = [w mod 2 ^ 8; (w / 2 ^ 8) mod 2 ^ 8; (w / 2 ^ 16) mod 2 ^ 8; (w / 2 ^ 24) mod 2 ^ 8].
Proof.
  unfold word_bytes. change 255 with (Z.ones 8).
  rewrite !Z.land_ones, !Z.shiftr_div_pow2 by lia. reflexivity.
Qed.

Lemma word_bytes_word b0 b1 b2 b3 :
  is_u8 b0 -> is_u8 b1 -> is_u8 b2 -> is_u8 b3 ->
  word_bytes (bytes_word b0 b1 b2 b3) = [b0; b1; b2; b3].
Proof.
  intros. rewrite bytes_word_sum, word_bytes_arith by assumption.
  unfold is_u8 in *. 
  change (2^8) with 256 in *. change (2^16) with 65536. change (2^24) with 16777216.
  repeat f_equal; Z.div_mod_to_equations; lia.
Qed.

Lemma word_bytes_u8 w : Forall is_u8 (word_bytes w).
Proof.
  rewrite word_bytes_arith. unfold is_u8.
  repeat constructor; apply Z.mod_pos_bound; lia.
Qed.

Lemma bytes_word_bytes w :
  is_u32 w ->
  bytes_word (w mod 2 ^ 8) ((w / 2 ^ 8) mod 2 ^ 8) ((w / 2 ^ 16) mod 2 ^ 8) ((w / 2 ^ 24) mod 2 ^ 8) = w.
Proof.
  intros Hw. rewrite bytes_word_sum by (unfold is_u8; apply Z.mod_pos_bound; lia).
  unfold is_u32 in Hw.
  change (2^8) with 256 in *. change (2^16) with 65536. change (2^24) with 16777216.
  change (2^32) with 4294967296 in *.
  Z.div_mod_to_equations; lia.
Qed.

Lemma bswap_32_bytes x :
  bswap_32 x = bytes_word (Z.land (Z.shiftr x 24) 255) (Z.land (Z.shiftr x 16) 255)
                          (Z.land (Z.shiftr x 8) 255) (Z.land x 255).
Proof.
  unfold bswap_32, bytes_word.
  change 0xFF with (Z.ones 8). change 255 with (Z.ones 8).
  change 0xFF00 with (Z.shiftl (Z.ones 8) 8).
  Z.bitblast.
Qed.

Lemma rotr_eq x n : is_u32 x -> 0 < n < 32 -> ROTR32 x n = Fips.rotr x n.
Proof.
  unfold ROTR32, Fips.rotr, shl32, u32, is_u32. intros Hx Hn.
  rewrite <- !Z.land_ones by lia.
  Z.bitblast.
  destruct (Z.lt_ge_cases l 32).
  - rewrite (Z.testbit_neg_r x l0) by lia. reflexivity.
  - rewrite (testbit_high x 32 l) by lia. reflexivity.
Qed.

Lemma Ch_eq x y z : Ch x y z = Fips.ch x y z.
Proof. unfold Ch, Fips.ch. Z.bitblast. Qed.

Lemma Maj_eq x y z : Maj x y z = Fips.maj x y z.
Proof. unfold Maj, Fips.maj. Z.bitblast. Qed.
(** ** The compression function refines the specification's *)


Lemma u32_range x : is_u32 (u32 x).
Proof. apply Z.mod_pos_bound. lia. Qed.

Lemma is_u32_0 : is_u32 0.
Proof. unfold is_u32. lia. Qed.

Lemma get_range (P : Z -> Prop) a n : P 0 -> Forall P a -> P (get a n).
Proof.
  intros H0 Ha. unfold get. destruct (nth_in_or_default n a 0) as [Hin| ->]; auto.
  rewrite Forall_forall in Ha. auto.
Qed.

Lemma Sigma0_eq x : is_u32 x -> Sigma0 x = Fips.S0 x.
Proof. intros. unfold Sigma0, Fips.S0. rewrite !rotr_eq by (auto; lia). reflexivity. Qed.
Lemma Sigma1_eq x : is_u32 x -> Sigma1 x = Fips.S1 x.
Proof. intros. unfold Sigma1, Fips.S1. rewrite !rotr_eq by (auto; lia). reflexivity. Qed.
Lemma sigma0_eq x : is_u32 x -> sigma0 x = Fips.s0 x.
Proof. intros. unfold sigma0, Fips.s0. rewrite !rotr_eq by (auto; lia). reflexivity. Qed.
Lemma sigma1_eq x : is_u32 x -> sigma1 x = Fips.s1 x.
Proof. intros. unfold sigma1, Fips.s1. rewrite !rotr_eq by (auto; lia). reflexivity. Qed.

Ltac mod_assoc :=
  repeat (rewrite <- ?Z.add_assoc; rewrite Z.add_mod_idemp_l by lia);
  f_equal; lia.

Lemma add32_assoc5 a b c d e :
  u32 (a + b + c + d + e) =
  Fips.add32 (Fips.add32 (Fips.add32 (Fips.add32 a b) c) d) e.
Proof.
  unfold u32, Fips.add32. mod_assoc.
Qed.

Lemma add32_assoc3 a b c :
  u32 (a + b + c) = Fips.add32 (Fips.add32 a b) c.
Proof.
  unfold u32, Fips.add32. mod_assoc.
Qed.

Lemma recalc_arith w16 x2 w7 x15 :
  u32 (w16 + (x2 + w7 + x15)) =
  Fips.add32 (Fips.add32 (Fips.add32 x2 w7) x15) w16.
Proof.
  unfold u32, Fips.add32. mod_assoc.
Qed.

Lemma round_src_eq v k w : work_ok v -> round_src v k w = Fips.round v k w.
Proof.
  destruct v as [[[[[[[a b] c] d] e] f] g] h]. simpl. intros (Ha & _ & _ & _ & He & _).
  rewrite Sigma1_eq, Sigma0_eq, Ch_eq, Maj_eq by assumption.
  rewrite add32_assoc5, add32_assoc3. reflexivity.
Qed.

Lemma round_ok v k w : work_ok v -> work_ok (Fips.round v k w).
Proof.
  destruct v as [[[[[[[a b] c] d] e] f] g] h]. simpl. intros (Ha & Hb & Hc & Hd & He & Hf & Hg & Hh).
  repeat split; try apply Ha; try apply Hb; try apply Hc; try apply Hd; try apply He;
    try apply Hf; try apply Hg; try apply Hh;
    try (apply Z.mod_pos_bound; lia).
Qed.

Lemma ROUNDn_view n k w r :
  (n < 16)%nat -> view (S n) (ROUNDn n k w r) = round_src (view n r) k w.
Proof.
  intros Hn. destruct r.
  do 16 (destruct n as [|n]; [reflexivity|]). lia.
Qed.


Lemma rounds_S W t v :
  Fips.rounds W (S t) v =
  Fips.round (Fips.rounds W t v) (get rhash_k256 t) (get W t).
Proof. unfold Fips.rounds. rewrite seq_S, fold_left_app. reflexivity. Qed.

Lemma rounds_ok W t v : work_ok v -> work_ok (Fips.rounds W t v).
Proof.
  intros Hv. induction t as [|t IH]; [exact Hv|].
  rewrite rounds_S. apply round_ok, IH.
Qed.

Lemma extend_length k W : List.length (Fips.extend k W) = (List.length W + k)%nat.
Proof.
  revert W; induction k as [|k IH]; intros W; simpl; [lia|].
  rewrite IH, length_app. simpl. lia.
Qed.

Lemma extend_old k W t :
  (t < List.length W)%nat -> get (Fips.extend k W) t = get W t.
Proof.
  revert W; induction k as [|k IH]; intros W Ht; simpl; [reflexivity|].
  rewrite IH by (rewrite length_app; simpl; lia).
  unfold get. apply app_nth1, Ht.
Qed.

Lemma extend_new k W t :
  (16 <= List.length W <= t)%nat -> (t < List.length W + k)%nat ->
  get (Fips.extend k W) t =
  Fips.add32 (Fips.add32 (Fips.add32 (Fips.s1 (get (Fips.extend k W) (t - 2)))
                                     (get (Fips.extend k W) (t - 7)))
                         (Fips.s0 (get (Fips.extend k W) (t - 15))))
             (get (Fips.extend k W) (t - 16)).
Proof.
  revert W; induction k as [|k IH]; intros W Hl Ht; [lia|].
  destruct (Nat.eq_dec t (List.length W)) as [->|Hne].
  - simpl. rewrite !extend_old by (rewrite length_app; simpl; lia).
    unfold get at 1. rewrite app_nth2, Nat.sub_diag by lia. simpl.
    unfold Fips.next_w, get. rewrite !app_nth1 by lia. reflexivity.
  - simpl. apply IH; rewrite length_app; simpl; lia.
Qed.

Lemma extend_range k W : Forall is_u32 W -> Forall is_u32 (Fips.extend k W).
Proof.
  revert W; induction k as [|k IH]; intros W HW; simpl; [exact HW|].
  apply IH, Forall_app. split; [exact HW|].
  constructor; [|constructor]. apply Z.mod_pos_bound. lia.
Qed.

(** Lists of bytes are taken apart four at a time. *)
Lemma quads_ind (P : list Z -> Prop) :
  (forall l, (List.length l < 4)%nat -> P l) ->
  (forall b0 b1 b2 b3 t, P t -> P (b0 :: b1 :: b2 :: b3 :: t)) ->
  forall l, P l.
Proof.
  intros Hs Hq l.
  assert (H : forall n l, (List.length l <= n)%nat -> P l).
  { clear l. induction n as [|n IH]; intros l Hl.
    - apply Hs. lia.
    - destruct l as [|b0 [|b1 [|b2 [|b3 t]]]]; try (apply Hs; simpl; lia).
      apply Hq, IH. simpl in Hl. lia. }
  apply (H (List.length l)). lia.
Qed.

Lemma bytes_word_parts b0 b1 b2 b3 :
  is_u8 b0 -> is_u8 b1 -> is_u8 b2 -> is_u8 b3 ->
  Z.land (bytes_word b0 b1 b2 b3) 255 = b0 /\
  Z.land (Z.shiftr (bytes_word b0 b1 b2 b3) 8) 255 = b1 /\
  Z.land (Z.shiftr (bytes_word b0 b1 b2 b3) 16) 255 = b2 /\
  Z.land (Z.shiftr (bytes_word b0 b1 b2 b3) 24) 255 = b3.
Proof.
  intros. rewrite bytes_word_sum by assumption.
  change 255 with (Z.ones 8).
  rewrite !Z.land_ones, !Z.shiftr_div_pow2 by lia.
  unfold is_u8 in *.
  change (2^8) with 256 in *. change (2^16) with 65536. change (2^24) with 16777216.
  repeat split; Z.div_mod_to_equations; lia.
Qed.

Lemma be_words_bswap bs :
  Forall is_u8 bs -> map bswap_32 (words_of_bytes bs) = Fips.be_words bs.
Proof.
  induction bs as [l Hl|b0 b1 b2 b3 t IH] using quads_ind; intros H.
  - destruct l as [|? [|? [|? [|? ?]]]]; try reflexivity. simpl in Hl. lia.
  - inversion H as [|? ? H0 Ha]; subst. inversion Ha as [|? ? H1 Hb]; subst.
    inversion Hb as [|? ? H2 Hc]; subst. inversion Hc as [|? ? H3 Ht]; subst.
    cbn [words_of_bytes map Fips.be_words]. rewrite (IH Ht). f_equal.
    rewrite bswap_32_bytes.
    destruct (bytes_word_parts b0 b1 b2 b3 H0 H1 H2 H3) as (E0 & E1 & E2 & E3).
    rewrite E0, E1, E2, E3.
    rewrite bytes_word_sum by assumption. lia.
Qed.

Lemma be_words_range bs : Forall is_u8 bs -> Forall is_u32 (Fips.be_words bs).
Proof.
  induction bs as [l Hl|b0 b1 b2 b3 t IH] using quads_ind; intros H.
  - destruct l as [|? [|? [|? [|? ?]]]]; simpl in *; try apply Forall_nil; lia.
  - inversion H as [|? ? H0 Ha]; subst. inversion Ha as [|? ? H1 Hb]; subst.
    inversion Hb as [|? ? H2 Hc]; subst. inversion Hc as [|? ? H3 Ht]; subst.
    cbn [Fips.be_words]. constructor; [|apply IH, Ht].
    unfold is_u8, is_u32 in *. lia.
Qed.

Lemma be_words_length bs :
  List.length (Fips.be_words bs) = (List.length bs / 4)%nat.
Proof.
  induction bs as [l Hl|b0 b1 b2 b3 t IH] using quads_ind.
  - rewrite Nat.div_small by lia.
    destruct l as [|? [|? [|? [|? ?]]]]; try reflexivity. simpl in Hl. lia.
  - change (List.length (b0 :: b1 :: b2 :: b3 :: t)) with (1 * 4 + List.length t)%nat.
    rewrite Nat.div_add_l by lia. simpl. rewrite IH. reflexivity.
Qed.

Lemma get_map_bswap a n : get (map bswap_32 a) n = bswap_32 (get a n).
Proof. unfold get. change 0 with (bswap_32 0) at 1. apply map_nth. Qed.

Lemma circ_spec n d :
  (n < 16)%nat -> (0 < d <= 16)%nat ->
  circ (Z.of_nat n) (Z.of_nat d) = if (d <=? n)%nat then (n - d)%nat else (n + 16 - d)%nat.
Proof.
  intros Hn Hd. unfold circ. change 15 with (Z.ones 4). rewrite Z.land_ones by lia.
  destruct (Nat.leb_spec d n).
  - rewrite Z.mod_small by lia. lia.
  - replace (Z.of_nat n - Z.of_nat d) with (Z.of_nat (n + 16 - d) + (-1) * 2 ^ 4) by lia.
    rewrite Z.mod_add by lia. rewrite Z.mod_small by lia. lia.
Qed.

Section Schedule.

Variable bs : list Z.
Hypothesis bs_u8 : Forall is_u8 bs.
Hypothesis bs_len : List.length bs = 64%nat.

Lemma schedule_range t : is_u32 (get (Fips.schedule bs) t).
Proof.
  apply (get_range is_u32); [apply is_u32_0|].
  exact (extend_range 48 _ (be_words_range bs bs_u8)).
Qed.

Lemma be_words_16 : List.length (Fips.be_words bs) = 16%nat.
Proof. rewrite be_words_length, bs_len. reflexivity. Qed.

Lemma schedule_low t :
  (t < 16)%nat -> get (Fips.schedule bs) t = bswap_32 (get (words_of_bytes bs) t).
Proof.
  intros Ht.
  transitivity (get (Fips.be_words bs) t).
  - apply (extend_old 48). rewrite be_words_16. exact Ht.
  - rewrite <- be_words_bswap by exact bs_u8. apply get_map_bswap.
Qed.

Lemma schedule_high t :
  (16 <= t < 64)%nat ->
  get (Fips.schedule bs) t =
  u32 (get (Fips.schedule bs) (t - 16) +
       (sigma1 (get (Fips.schedule bs) (t - 2)) + get (Fips.schedule bs) (t - 7)
        + sigma0 (get (Fips.schedule bs) (t - 15)))).
Proof.
  intros Ht. rewrite recalc_arith, sigma1_eq, sigma0_eq by apply schedule_range.
  apply (extend_new 48); rewrite be_words_16; lia.
Qed.

End Schedule.

Section Simulation.

Variable bs : list Z.
Variable v0 : Fips.work.
Hypothesis v0_ok : work_ok v0.

Variable Wf : list Z.
Hypothesis Wf_low :
  forall t, (t < 16)%nat -> get Wf t = bswap_32 (get (words_of_bytes bs) t).
Hypothesis Wf_high :
  forall t, (16 <= t < 64)%nat ->
  get Wf t =
  u32 (get Wf (t - 16) +
       (sigma1 (get Wf (t - 2)) + get Wf (t - 7) + sigma0 (get Wf (t - 15)))).

Lemma step_1_16 n s :
  (n < 16)%nat -> inv0 Wf v0 n s ->
  inv0 Wf v0 (S n)
    (ROUND_1_16 (words_of_bytes bs) (rho n vA) (rho n vB) (rho n vC) (rho n vD)
       (rho n vE) (rho n vF) (rho n vG) (rho n vH) n s).
Proof.
  intros Hn (Hl & HW & Hv). unfold ROUND_1_16, inv0. cbn [fst snd].
  split; [now rewrite upd_length|]. split.
  - intros j Hj. destruct (Nat.eq_dec j n) as [->|Hne].
    + rewrite get_upd_same by lia. symmetry. apply Wf_low, Hn.
    + rewrite get_upd_other by congruence. apply HW. lia.
  - fold (ROUNDn n). rewrite ROUNDn_view by exact Hn.
    rewrite Hv, round_src_eq by (apply rounds_ok, v0_ok).
    rewrite rounds_S, get_upd_same by lia. now rewrite Wf_low.
Qed.

Lemma step_17_64 i n s :
  (n < 16)%nat -> (16 <= i)%nat -> (i + n < 64)%nat -> inv Wf v0 i n s ->
  inv Wf v0 i (S n)
    (ROUND_17_64 i (rho n vA) (rho n vB) (rho n vC) (rho n vD)
       (rho n vE) (rho n vF) (rho n vG) (rho n vH) n s).
Proof.
  intros Hn Hi Hin (Hl & HW & Hv). unfold ROUND_17_64, inv. cbn [fst snd].
  assert (Hnew : get (RECALCULATE_W (snd s) n) n = get Wf (i + n)).
  { unfold RECALCULATE_W. rewrite get_upd_same by lia.
    change 2 with (Z.of_nat 2). change 7 with (Z.of_nat 7).
    change 15 with (Z.of_nat 15).
    rewrite !circ_spec by lia.
    rewrite Wf_high by lia.
    rewrite (HW n) by lia. rewrite Nat.ltb_irrefl.
    assert (E : forall d, (0 < d < 16)%nat ->
              get (snd s) (if (d <=? n)%nat then (n - d)%nat else (n + 16 - d)%nat)
              = get Wf (i + n - d)).
    { intros d Hd. destruct (Nat.leb_spec d n).
      - rewrite HW by lia. destruct (Nat.ltb_spec (n - d) n); [|lia]. f_equal. lia.
      - rewrite HW by lia. destruct (Nat.ltb_spec (n + 16 - d) n); [lia|]. f_equal. lia. }
    rewrite !E by lia. do 2 f_equal. }
  split; [unfold RECALCULATE_W; now rewrite upd_length|]. split.
  - intros j Hj. destruct (Nat.eq_dec j n) as [->|Hne].
    + rewrite Hnew. destruct (Nat.ltb_spec n (S n)); [reflexivity|lia].
    + unfold RECALCULATE_W. rewrite get_upd_other by congruence.
      rewrite HW by exact Hj.
      destruct (Nat.ltb_spec j n), (Nat.ltb_spec j (S n)); try lia; reflexivity.
  - fold (ROUNDn n). rewrite ROUNDn_view by exact Hn.
    rewrite Hv, round_src_eq by (apply rounds_ok, v0_ok).
    rewrite Hnew. replace (i + S n)%nat with (S (i + n)) by lia.
    now rewrite rounds_S.
Qed.

Lemma inv0_inv s : inv0 Wf v0 16 s -> inv Wf v0 16 0 s.
Proof.
  intros (Hl & HW & Hv). split; [exact Hl|]. split.
  - intros j Hj. cbn [Nat.ltb Nat.leb]. rewrite HW by exact Hj. f_equal. lia.
  - exact Hv.
Qed.

Lemma inv_next i s : inv Wf v0 i 16 s -> inv Wf v0 (i + 16) 0 s.
Proof.
  intros (Hl & HW & Hv). split; [exact Hl|]. split.
  - intros j Hj. rewrite HW by exact Hj.
    destruct (Nat.ltb_spec j 16); [|lia]. cbn [Nat.ltb Nat.leb]. f_equal. lia.
  - cbn [fst]. replace (i + 16 + 0)%nat with (i + 16)%nat by lia.
    rewrite <- Hv. now destruct (fst s).
Qed.

Lemma rounds_1_16_inv s : inv0 Wf v0 0 s -> inv0 Wf v0 16 (rounds_1_16 (words_of_bytes bs) s).
Proof.
  intros H. unfold rounds_1_16. cbv zeta.
  apply (step_1_16 15); [lia|]. apply (step_1_16 14); [lia|].
  apply (step_1_16 13); [lia|]. apply (step_1_16 12); [lia|].
  apply (step_1_16 11); [lia|]. apply (step_1_16 10); [lia|].
  apply (step_1_16 9); [lia|]. apply (step_1_16 8); [lia|].
  apply (step_1_16 7); [lia|]. apply (step_1_16 6); [lia|].
  apply (step_1_16 5); [lia|]. apply (step_1_16 4); [lia|].
  apply (step_1_16 3); [lia|]. apply (step_1_16 2); [lia|].
  apply (step_1_16 1); [lia|]. apply (step_1_16 0); [lia|]. exact H.
Qed.

Lemma rounds_17_64_inv i s :
  (16 <= i)%nat -> (i + 16 <= 64)%nat -> inv Wf v0 i 0 s -> inv Wf v0 (i + 16) 0 (rounds_17_64 s i).
Proof.
  intros Hi Hi' H. apply inv_next. unfold rounds_17_64. cbv zeta.
  apply (step_17_64 i 15); [lia..|]. apply (step_17_64 i 14); [lia..|].
  apply (step_17_64 i 13); [lia..|]. apply (step_17_64 i 12); [lia..|].
  apply (step_17_64 i 11); [lia..|]. apply (step_17_64 i 10); [lia..|].
  apply (step_17_64 i 9); [lia..|]. apply (step_17_64 i 8); [lia..|].
  apply (step_17_64 i 7); [lia..|]. apply (step_17_64 i 6); [lia..|].
  apply (step_17_64 i 5); [lia..|]. apply (step_17_64 i 4); [lia..|].
  apply (step_17_64 i 3); [lia..|]. apply (step_17_64 i 2); [lia..|].
  apply (step_17_64 i 1); [lia..|]. apply (step_17_64 i 0); [lia..|]. exact H.
Qed.

Lemma all_rounds r :
  view 0 r = v0 ->
  view 0 (fst (fold_left rounds_17_64 [16; 32; 48]%nat
                 (rounds_1_16 (words_of_bytes bs) (r, repeat 0 16%nat))))
  = Fips.rounds Wf 64 v0.
Proof.
  intros Hr. cbn [fold_left].
  assert (H0 : inv0 Wf v0 0 (r, repeat 0 16%nat)).
  { split; [reflexivity|]. split; [intros j Hj; lia|exact Hr]. }
  apply rounds_1_16_inv, inv0_inv in H0.
  apply (rounds_17_64_inv 16) in H0; [|lia..].
  apply (rounds_17_64_inv 32) in H0; [|lia..].
  apply (rounds_17_64_inv 48) in H0; [|lia..].
  destruct H0 as (_ & _ & Hv). exact Hv.
Qed.

End Simulation.

Lemma process_block_refines hash block :
  Forall is_u32 hash -> Forall is_u8 block -> List.length block = 64%nat ->
  sha256_process_block hash (words_of_bytes block) = Fips.compress hash block.
Proof.
  intros Hh Hb Hl. unfold sha256_process_block, Fips.compress.
  set (r := Regs _ _ _ _ _ _ _ _).
  set (v0 := (get hash 0, get hash 1, get hash 2, get hash 3,
              get hash 4, get hash 5, get hash 6, get hash 7)).
  assert (Hv0 : work_ok v0).
  { unfold v0, work_ok. repeat split; apply (get_range is_u32); auto using is_u32_0. }
  assert (H : view 0 (fst (fold_left rounds_17_64 [16; 32; 48]%nat
                 (rounds_1_16 (words_of_bytes block) (r, repeat 0 16%nat))))
               = Fips.rounds (Fips.schedule block) 64 v0).
  { apply all_rounds;
      auto using schedule_range, schedule_low, schedule_high. }
  cbv zeta. destruct (Fips.rounds _ 64 v0) as [[[[[[[a b] c] d] e] f] g] h].
  destruct (fst _) as [rA rB rC rD rE rF rG rH].
  unfold view in H. cbn [rho Nat.iter nat_rect rd] in H.
  injection H as -> -> -> -> -> -> -> ->. reflexivity.
Qed.

(** ** Memory images *)

Lemma is_u8_0 : is_u8 0.
Proof. unfold is_u8. lia. Qed.

Lemma bytes_of_words_app a b :
  bytes_of_words (a ++ b) = bytes_of_words a ++ bytes_of_words b.
Proof. apply flat_map_app. Qed.

Lemma bytes_of_words_length ws :
  List.length (bytes_of_words ws) = (4 * List.length ws)%nat.
Proof.
  induction ws as [|w ws IH]; [reflexivity|].
  change (bytes_of_words (w :: ws)) with (word_bytes w ++ bytes_of_words ws).
  rewrite length_app, IH. simpl. lia.
Qed.

Lemma bytes_of_words_u8 ws : Forall is_u8 (bytes_of_words ws).
Proof.
  induction ws as [|w ws IH]; [constructor|].
  change (bytes_of_words (w :: ws)) with (word_bytes w ++ bytes_of_words ws).
  apply Forall_app. split; [apply word_bytes_u8|exact IH].
Qed.

Lemma bytes_word_range b0 b1 b2 b3 :
  is_u8 b0 -> is_u8 b1 -> is_u8 b2 -> is_u8 b3 -> is_u32 (bytes_word b0 b1 b2 b3).
Proof.
  intros. rewrite bytes_word_sum by assumption. unfold is_u8, is_u32 in *. lia.
Qed.

Lemma words_bytes_id ws :
  Forall is_u32 ws -> words_of_bytes (bytes_of_words ws) = ws.
Proof.
  induction 1 as [|w ws Hw _ IH]; [reflexivity|].
  change (bytes_of_words (w :: ws)) with (word_bytes w ++ bytes_of_words ws).
  rewrite word_bytes_arith. cbn [app words_of_bytes].
  rewrite IH, bytes_word_bytes by exact Hw. reflexivity.
Qed.

Lemma bytes_words_id bs :
  Forall is_u8 bs -> (List.length bs mod 4 = 0)%nat ->
  bytes_of_words (words_of_bytes bs) = bs.
Proof.
  induction bs as [l Hl|b0 b1 b2 b3 t IH] using quads_ind; intros H Hm.
  - rewrite Nat.mod_small in Hm by exact Hl. now destruct l.
  - inversion H as [|? ? H0 Ha]; subst. inversion Ha as [|? ? H1 Hb]; subst.
    inversion Hb as [|? ? H2 Hc]; subst. inversion Hc as [|? ? H3 Ht]; subst.
    cbn [words_of_bytes].
    change (bytes_of_words (?w :: ?ws)) with (word_bytes w ++ bytes_of_words ws).
    rewrite word_bytes_word by assumption. cbn [app]. do 4 f_equal.
    apply IH; [exact Ht|].
    cbn [List.length] in Hm.
    replace (S (S (S (S (List.length t))))) with (List.length t + 1 * 4)%nat in Hm by lia.
    now rewrite Nat.Div0.mod_add in Hm.
Qed.

Lemma words_of_bytes_u32 bs : Forall is_u8 bs -> Forall is_u32 (words_of_bytes bs).
Proof.
  induction bs as [l Hl|b0 b1 b2 b3 t IH] using quads_ind; intros H.
  - destruct l as [|? [|? [|? [|? ?]]]]; simpl in *; try apply Forall_nil; lia.
  - inversion H as [|? ? H0 Ha]; subst. inversion Ha as [|? ? H1 Hb]; subst.
    inversion Hb as [|? ? H2 Hc]; subst. inversion Hc as [|? ? H3 Ht]; subst.
    cbn [words_of_bytes]. constructor; [now apply bytes_word_range|apply IH, Ht].
Qed.

Lemma words_of_bytes_length bs :
  List.length (words_of_bytes bs) = (List.length bs / 4)%nat.
Proof.
  induction bs as [l Hl|b0 b1 b2 b3 t IH] using quads_ind.
  - rewrite Nat.div_small by lia.
    destruct l as [|? [|? [|? [|? ?]]]]; try reflexivity. simpl in Hl. lia.
  - change (List.length (b0 :: b1 :: b2 :: b3 :: t)) with (1 * 4 + List.length t)%nat.
    rewrite Nat.div_add_l by lia. simpl. rewrite IH. reflexivity.
Qed.

Lemma upd_u8 i v bs : is_u8 v -> Forall is_u8 bs -> Forall is_u8 (upd i v bs).
Proof.
  intros Hv Hb. revert i. induction Hb as [|b bs Hb0 Hb IH]; intros [|i]; simpl;
    constructor; auto.
Qed.

Lemma upd_app_mid l1 x l2 v :
  upd (List.length l1) v (l1 ++ x :: l2) = l1 ++ v :: l2.
Proof. induction l1 as [|y l1 IH]; simpl; [reflexivity|now rewrite IH]. Qed.

Lemma store8_bytes a i v :
  is_u8 v -> bytes_of_words (store8 a i v) = upd i v (bytes_of_words a).
Proof.
  intros Hv. unfold store8. apply bytes_words_id.
  - apply upd_u8; [exact Hv|apply bytes_of_words_u8].
  - rewrite upd_length, bytes_of_words_length, Nat.mul_comm. apply Nat.Div0.mod_mul.
Qed.

Lemma store8_length a i v : List.length (store8 a i v) = List.length a.
Proof.
  unfold store8. rewrite words_of_bytes_length, upd_length, bytes_of_words_length.
  rewrite Nat.mul_comm. apply Nat.div_mul. lia.
Qed.

Lemma store8_u32 a i v : is_u8 v -> Forall is_u32 (store8 a i v).
Proof.
  intros Hv. unfold store8. apply words_of_bytes_u32, upd_u8;
    [exact Hv|apply bytes_of_words_u8].
Qed.

Lemma skipn_cons_get n (l : list Z) :
  (n < List.length l)%nat -> skipn n l = get l n :: skipn (S n) l.
Proof.
  revert n. induction l as [|x l IH]; intros [|n] H; simpl in *; try lia; auto.
  apply IH. lia.
Qed.

(** What [copy_in] leaves in the message buffer, byte for byte. *)
Lemma copy_in_bytes buf msg index n message :
  (index + n <= 4 * List.length message)%nat ->
  (forall i, (i < n)%nat -> is_u8 (buf (msg + i)%nat)) ->
  bytes_of_words (copy_in buf msg index n message) =
  firstn index (bytes_of_words message)
    ++ map (fun i => buf (msg + i)%nat) (seq 0 n)
    ++ skipn (index + n) (bytes_of_words message).
Proof.
  unfold copy_in. induction n as [|n IH]; intros Hn Hb.
  - simpl. rewrite Nat.add_0_r. symmetry. apply firstn_skipn.
  - rewrite seq_S, fold_left_app, map_app. cbn [fold_left map Nat.add].
    rewrite store8_bytes by (apply Hb; lia).
    rewrite IH by (try lia; intros; apply Hb; lia).
    set (B := bytes_of_words message).
    assert (HB : List.length B = (4 * List.length message)%nat)
      by apply bytes_of_words_length.
    assert (Hs : skipn (index + n) B = get B (index + n) :: skipn (index + S n) B).
    { rewrite Nat.add_succ_r. apply skipn_cons_get. lia. }
    rewrite Hs, !app_assoc.
    replace (index + n)%nat with
      (List.length (firstn index B ++ map (fun i => buf (msg + i)%nat) (seq 0 n))).
    2:{ rewrite length_app, length_firstn, length_map, length_seq. lia. }
    rewrite upd_app_mid. rewrite <- !app_assoc. reflexivity.
Qed.

Lemma copy_in_length buf msg index n message :
  List.length (copy_in buf msg index n message) = List.length message.
Proof.
  unfold copy_in. induction n as [|n IH]; [reflexivity|].
  rewrite seq_S, fold_left_app. cbn [fold_left]. now rewrite store8_length.
Qed.

Lemma copy_in_u32 buf msg index n message :
  (forall i, (i < n)%nat -> is_u8 (buf (msg + i)%nat)) ->
  Forall is_u32 message -> Forall is_u32 (copy_in buf msg index n message).
Proof.
  unfold copy_in. induction n as [|n IH]; intros Hb Hm; [exact Hm|].
  rewrite seq_S, fold_left_app. cbn [fold_left]. apply store8_u32, Hb. lia.
Qed.

(** ** Blocks of a message *)

Lemma hash_blocks_short h m : (List.length m < 64)%nat -> hash_blocks h m = h.
Proof. intros H. unfold hash_blocks. now rewrite Nat.div_small. Qed.

Lemma pending_short m : (List.length m < 64)%nat -> pending m = m.
Proof. intros H. unfold pending. now rewrite Nat.div_small. Qed.

Lemma firstn_64_app (a m : list Z) :
  List.length a = 64%nat -> firstn 64 (a ++ m) = a.
Proof.
  intros <-. rewrite firstn_app, Nat.sub_diag, firstn_all. apply app_nil_r.
Qed.

Lemma skipn_64_app (a m : list Z) :
  List.length a = 64%nat -> skipn 64 (a ++ m) = m.
Proof.
  intros <-. rewrite skipn_app, Nat.sub_diag, skipn_all. reflexivity.
Qed.

Lemma hash_blocks_cons h a m :
  List.length a = 64%nat -> hash_blocks h (a ++ m) = hash_blocks (compress h a) m.
Proof.
  intros Ha. unfold hash_blocks. rewrite length_app, Ha.
  replace (64 + List.length m)%nat with (1 * 64 + List.length m)%nat by lia.
  rewrite Nat.div_add_l by lia. cbn [Nat.add blocks fold_left].
  now rewrite firstn_64_app, skipn_64_app.
Qed.

Lemma pending_cons a m :
  List.length a = 64%nat -> pending (a ++ m) = pending m.
Proof.
  intros Ha. unfold pending. rewrite length_app, Ha.
  replace (64 + List.length m)%nat with (1 * 64 + List.length m)%nat by lia.
  rewrite Nat.div_add_l by lia.
  replace (64 * (1 + List.length m / 64))%nat
    with (List.length a + 64 * (List.length m / 64))%nat by lia.
  rewrite skipn_app, Nat.add_comm, Nat.add_sub.
  rewrite (skipn_all2 a) by lia. reflexivity.
Qed.

Lemma pending_length m : List.length (pending m) = (List.length m mod 64)%nat.
Proof.
  unfold pending. rewrite length_skipn.
  pose proof (Nat.div_mod_eq (List.length m) 64). lia.
Qed.

(** Absorbing [m] and then [c] is absorbing what was pending after [m]
    followed by [c], from the state reached after [m]. *)
Lemma hash_blocks_app h m c :
  hash_blocks h (m ++ c) = hash_blocks (hash_blocks h m) (pending m ++ c) /\
  pending (m ++ c) = pending (pending m ++ c).
Proof.
  remember (List.length m) as n eqn:Hn. revert h m Hn.
  induction n as [n IH] using lt_wf_ind. intros h m Hn.
  destruct (Nat.lt_ge_cases n 64) as [Hlt|Hge].
  - rewrite (hash_blocks_short h m), (pending_short m) by lia. auto.
  - assert (Em : m = firstn 64 m ++ skipn 64 m) by (symmetry; apply firstn_skipn).
    assert (Ha : List.length (firstn 64 m) = 64%nat) by (rewrite length_firstn; lia).
    assert (Hm : List.length (skipn 64 m) = (n - 64)%nat) by (rewrite length_skipn; lia).
    revert Em Ha Hm. generalize (firstn 64 m) (skipn 64 m). intros a m' Em Ha Hm.
    rewrite Em, <- app_assoc.
    rewrite (hash_blocks_cons h a (m' ++ c)), (hash_blocks_cons h a m') by exact Ha.
    rewrite (pending_cons a (m' ++ c)), (pending_cons a m') by exact Ha.
    apply (IH (n - 64)%nat); lia.
Qed.

Lemma hash_blocks_exact h m :
  List.length m = 64%nat -> hash_blocks h m = compress h m.
Proof.
  intros H. rewrite <- (app_nil_r m) at 1. rewrite hash_blocks_cons by exact H.
  now rewrite hash_blocks_short by (simpl; lia).
Qed.

(** ** [Hash_Update] *)

Lemma host_write_holds data g : holds (main_buffer (host_write data g)) data.
Proof.
  intros i Hi. cbn [host_write main_buffer].
  destruct (Nat.ltb_spec i (List.length data)); [reflexivity|lia].
Qed.

Lemma holds_read buf data msg n :
  holds buf data -> (msg + n <= List.length data)%nat ->
  map (fun i => buf (msg + i)%nat) (seq 0 n) = firstn n (skipn msg data).
Proof.
  intros Hb. revert msg. induction n as [|n IH]; intros msg Hn; [reflexivity|].
  cbn [seq map]. rewrite <- seq_shift, map_map.
  rewrite (skipn_cons_get msg data) by lia. cbn [firstn].
  rewrite Nat.add_0_r, Hb by lia. f_equal.
  rewrite <- IH by lia. apply map_ext. intros i. f_equal. lia.
Qed.

Lemma holds_u8 buf data i :
  holds buf data -> Forall is_u8 data -> (i < List.length data)%nat -> is_u8 (buf i).
Proof.
  intros Hb Hd Hi. rewrite Hb by exact Hi. apply (get_range is_u8); [apply is_u8_0|exact Hd].
Qed.

Lemma index_mod n : is_u64 n -> Z.land (u32 n) 63 = n mod 64.
Proof.
  intros Hn. unfold u32. change 63 with (Z.ones 6). rewrite Z.land_ones by lia.
  change (2 ^ 32) with (2 ^ 6 * 2 ^ 26). rewrite Z.rem_mul_r by lia.
  rewrite Z.mul_comm, Z.mod_add by lia. apply Z.mod_mod. lia.
Qed.

Section Update.

Variable data : list Z.
Variable buf : nat -> Z.
Hypothesis buf_data : holds buf data.
Hypothesis data_u8 : Forall is_u8 data.

Lemma full_blocks_spec fuel : forall hash msg,
  (msg <= List.length data)%nat ->
  (List.length (skipn msg data) / 64 <= fuel)%nat ->
  full_blocks fuel buf hash msg (Z.of_nat (List.length (skipn msg data))) =
  (hash_blocks hash (skipn msg data),
   (msg + 64 * (List.length (skipn msg data) / 64))%nat,
   Z.of_nat (List.length (skipn msg data) mod 64)).
Proof.
  induction fuel as [|fuel IH]; intros hash msg Hm Hf.
  - assert (Hs : (List.length (skipn msg data) < 64)%nat).
    { apply Nat.div_small_iff; lia. }
    cbn [full_blocks]. rewrite hash_blocks_short, Nat.div_small, Nat.mod_small by exact Hs.
    f_equal; f_equal; lia.
  - cbn [full_blocks]. unfold sha256_block_size.
    destruct (Z.leb_spec 64 (Z.of_nat (List.length (skipn msg data)))) as [Hge|Hlt].
    + rewrite length_skipn in Hge, Hf.
      assert (Ha : List.length (firstn 64 (skipn msg data)) = 64%nat).
      { rewrite length_firstn, length_skipn. lia. }
      assert (Hd : (List.length data - msg = 1 * 64 + (List.length data - (msg + 64)))%nat) by lia.
      assert (Hq : ((List.length data - msg) / 64 = 1 + (List.length data - (msg + 64)) / 64)%nat).
      { rewrite Hd at 1. apply Nat.div_add_l. lia. }
      assert (Hr : ((List.length data - msg) mod 64 = (List.length data - (msg + 64)) mod 64)%nat).
      { rewrite Hd at 1. rewrite Nat.add_comm. apply Nat.Div0.mod_add. }
      replace (Z.of_nat (List.length (skipn msg data)) - 64)
        with (Z.of_nat (List.length (skipn (msg + 64) data)))
        by (rewrite !length_skipn; lia).
      rewrite IH by (rewrite ?length_skipn; lia).
      unfold block_at. rewrite (holds_read buf data msg 64) by (auto; lia).
      fold (compress hash (firstn 64 (skipn msg data))).
      rewrite <- (hash_blocks_cons hash _ (skipn (msg + 64) data) Ha).
      replace (skipn (msg + 64) data) with (skipn 64 (skipn msg data))
        by (rewrite skipn_skipn; f_equal; lia).
      rewrite firstn_skipn, !length_skipn.
      replace (List.length data - msg - 64)%nat
        with (List.length data - (msg + 64))%nat by lia.
      rewrite Hq, Hr. f_equal; f_equal; lia.
    + assert (Hs : (List.length (skipn msg data) < 64)%nat) by lia.
      rewrite hash_blocks_short, Nat.div_small, Nat.mod_small by exact Hs.
      f_equal; f_equal; lia.
Qed.

Lemma update_rest_spec c msg :
  List.length (ctx_message c) = 16%nat -> Forall is_u32 (ctx_message c) ->
  (msg <= List.length data)%nat ->
  let rest := skipn msg data in
  let c' := update_rest buf c msg (Z.of_nat (List.length rest)) in
  ctx_hash c' = hash_blocks (ctx_hash c) rest /\
  bytes_of_words (ctx_message c') =
    pending rest ++ skipn (List.length (pending rest)) (bytes_of_words (ctx_message c)) /\
  List.length (ctx_message c') = 16%nat /\ Forall is_u32 (ctx_message c') /\
  ctx_length c' = ctx_length c /\ ctx_digest_length c' = ctx_digest_length c.
Proof.
  intros Hl Hu Hm rest c'. subst c'. unfold update_rest.
  replace (Z.to_nat (Z.of_nat (List.length rest) / 64)) with (List.length rest / 64)%nat.
  2:{ change 64 with (Z.of_nat 64). rewrite <- Nat2Z.inj_div. now rewrite Nat2Z.id. }
  subst rest. rewrite full_blocks_spec by (auto; lia).
  set (rest := skipn msg data).
  set (n := (List.length rest mod 64)%nat).
  set (msg' := (msg + 64 * (List.length rest / 64))%nat).
  assert (Hn : (n < 64)%nat) by (apply Nat.mod_upper_bound; lia).
  assert (Hrest : List.length rest = (List.length data - msg)%nat)
    by (unfold rest; apply length_skipn).
  assert (Hdm : List.length rest = (64 * (List.length rest / 64) + n)%nat)
    by apply Nat.div_mod_eq.
  assert (Hp : pending rest = firstn n (skipn msg' data)).
  { unfold pending, rest, msg'. rewrite skipn_skipn, (Nat.add_comm _ msg).
    symmetry. apply firstn_all2. rewrite length_skipn. fold rest. lia. }
  assert (Hpl : List.length (pending rest) = n) by apply pending_length.
  cbn [ctx_hash ctx_message ctx_length ctx_digest_length].
  split; [reflexivity|].
  destruct (Z.eqb_spec (Z.of_nat n) 0) as [E|E].
  - assert (n = 0)%nat as Hn0 by lia. rewrite Hp, Hn0. cbn [firstn List.length skipn app].
    auto.
  - rewrite Nat2Z.id, copy_in_length.
    split; [|split; [exact Hl|split; [|auto]]].
    + rewrite copy_in_bytes.
      * cbn [firstn Nat.add app]. rewrite (holds_read buf data msg' n) by (auto; lia).
        rewrite Hpl, <- Hp. reflexivity.
      * lia.
      * intros i Hi. apply (holds_u8 buf data); auto. lia.
    + apply copy_in_u32; [|exact Hu].
      intros i Hi. apply (holds_u8 buf data); auto. lia.
Qed.

End Update.

Lemma compress_message hash message :
  Forall is_u32 message ->
  sha256_process_block hash message = compress hash (bytes_of_words message).
Proof. intros H. unfold compress. now rewrite words_bytes_id. Qed.

(** [Hash_Update] on a context with [L] bytes pending, fed [data]. *)
Lemma Hash_Update_spec data g :
  let c := sctx g in
  let L := Z.to_nat (ctx_length c mod 64) in
  let p := firstn L (bytes_of_words (ctx_message c)) in
  let g' := update data g in
  let c' := sctx g' in
  List.length (ctx_message c) = 16%nat -> Forall is_u32 (ctx_message c) ->
  is_u64 (ctx_length c) -> chunk_ok data ->
  ctx_hash c' = hash_blocks (ctx_hash c) (p ++ data) /\
  firstn (List.length (pending (p ++ data))) (bytes_of_words (ctx_message c'))
    = pending (p ++ data) /\
  List.length (ctx_message c') = 16%nat /\ Forall is_u32 (ctx_message c') /\
  ctx_length c' = u64 (ctx_length c + Z.of_nat (List.length data)) /\
  ctx_digest_length c' = ctx_digest_length c /\
  main_buffer g' = main_buffer (host_write data g).
Proof.
  intros c L p g' c' Hl Hu Hn [Hd Hsz]. subst g' c'. unfold update, Hash_Update.
  set (buf := main_buffer (host_write data g)).
  assert (Hb : holds buf data) by apply host_write_holds.
  change (sctx (host_write data g)) with c.
  rewrite index_mod by exact Hn.
  assert (HL : 0 <= ctx_length c mod 64 < 64) by (apply Z.mod_pos_bound; lia).
  assert (HB : List.length (bytes_of_words (ctx_message c)) = 64%nat)
    by (rewrite bytes_of_words_length, Hl; reflexivity).
  assert (Hp : List.length p = L).
  { unfold p. rewrite length_firstn, HB. unfold L. lia. }
  destruct (Z.eqb_spec (ctx_length c mod 64) 0) as [E0|E0].
  - (* nothing pending *)
    assert (L = 0)%nat as HL0 by (unfold L; lia).
    assert (p = []) as -> by (unfold p; now rewrite HL0).
    cbn [app sctx main_buffer].
    destruct (update_rest_spec data buf Hb Hd
                (Ctx (ctx_message c) (u64 (ctx_length c + Z.of_nat (List.length data)))
                     (ctx_hash c) (ctx_digest_length c)) 0%nat Hl Hu ltac:(lia))
      as (H1 & H2 & H3 & H4 & H5 & H6).
    cbn [skipn ctx_hash ctx_message ctx_length ctx_digest_length] in *.
    rewrite H1, H2, H3, H5, H6. repeat split; auto.
    now rewrite firstn_app, Nat.sub_diag, firstn_all, firstn_O, app_nil_r.
  - unfold sha256_block_size.
    cbn [ctx_hash ctx_message ctx_length ctx_digest_length].
    destruct (Z.ltb_spec (Z.of_nat (List.length data)) (64 - ctx_length c mod 64))
      as [Hlt|Hge].
    + (* the chunk does not complete the pending block *)
      cbn [sctx main_buffer ctx_hash ctx_message ctx_length ctx_digest_length].
      rewrite Nat2Z.id. fold L.
      assert (Hs : (List.length (p ++ data) < 64)%nat)
        by (rewrite length_app, Hp; unfold L; lia).
      rewrite hash_blocks_short, pending_short by exact Hs.
      rewrite copy_in_length.
      repeat split; auto.
      * rewrite copy_in_bytes.
        -- rewrite (holds_read buf data 0 (List.length data)) by (auto; lia).
           cbn [skipn]. rewrite firstn_all. fold p.
           rewrite app_assoc, firstn_app, firstn_all.
           now rewrite Nat.sub_diag, firstn_O, app_nil_r.
        -- rewrite Hl. unfold L. lia.
        -- intros i Hi. now apply (holds_u8 buf data).
      * apply copy_in_u32; [|exact Hu].
        intros i Hi. now apply (holds_u8 buf data).
    + (* the pending block is completed and compressed *)
      set (left := Z.to_nat (64 - ctx_length c mod 64)).
      assert (Hleft : (L + left = 64)%nat) by (unfold L, left; lia).
      assert (Hld : (left <= List.length data)%nat) by (unfold left; lia).
      set (m1 := copy_in buf 0 L left (ctx_message c)).
      assert (Hm1 : bytes_of_words m1 = p ++ firstn left data).
      { unfold m1. rewrite copy_in_bytes.
        - rewrite (holds_read buf data 0 left) by (auto; lia).
          cbn [skipn]. fold p. rewrite Hleft.
          rewrite skipn_all2 by lia. now rewrite app_nil_r.
        - rewrite Hl. lia.
        - intros i Hi. apply (holds_u8 buf data); auto. lia. }
      assert (Hm1l : List.length m1 = 16%nat) by (unfold m1; now rewrite copy_in_length).
      assert (Hm1u : Forall is_u32 m1).
      { unfold m1. apply copy_in_u32; [|exact Hu].
        intros i Hi. apply (holds_u8 buf data); auto. lia. }
      set (c1 := Ctx m1 (u64 (ctx_length c + Z.of_nat (List.length data)))
                     (sha256_process_block (ctx_hash c) m1) (ctx_digest_length c)).
      replace (Z.of_nat (List.length data) - (64 - ctx_length c mod 64))
        with (Z.of_nat (List.length (skipn left data)))
        by (rewrite length_skipn; unfold left; lia).
      destruct (update_rest_spec data buf Hb Hd c1 left Hm1l Hm1u Hld)
        as (H1 & H2 & H3 & H4 & H5 & H6).
      cbn [sctx main_buffer]. fold L. fold left. fold m1. fold c1.
      cbn [ctx_hash ctx_message ctx_length ctx_digest_length] in H1, H2, H5, H6.
      assert (Ha : List.length (p ++ firstn left data) = 64%nat).
      { rewrite length_app, Hp, length_firstn. lia. }
      assert (Ed : p ++ data = (p ++ firstn left data) ++ skipn left data).
      { now rewrite <- app_assoc, firstn_skipn. }
      rewrite H1, H2, H3, H5, H6, Ed. subst c1.
      cbn [ctx_hash ctx_message ctx_length ctx_digest_length] in *.
      rewrite hash_blocks_cons, pending_cons by exact Ha.
      repeat split; auto.
      * now rewrite compress_message, Hm1 by exact Hm1u.
      * now rewrite firstn_app, Nat.sub_diag, firstn_all, firstn_O, app_nil_r.
Qed.

Lemma wf_ctx_message c :
  wf_ctx c -> List.length (ctx_message c) = 16%nat /\ Forall is_u32 (ctx_message c)
              /\ is_u64 (ctx_length c).
Proof. intros (H1 & H2 & H3 & _). auto. Qed.

Lemma hash_blocks_length h m :
  List.length h = 8%nat -> List.length (hash_blocks h m) = 8%nat.
Proof.
  intros Hh. unfold hash_blocks. generalize (blocks (List.length m / 64) m).
  intros l. revert h Hh. induction l as [|b l IH]; intros h Hh; [exact Hh|].
  cbn [fold_left]. apply IH. reflexivity.
Qed.

Lemma hash_blocks_u32 h m :
  Forall is_u32 h -> Forall is_u32 (hash_blocks h m).
Proof.
  intros Hh. unfold hash_blocks. generalize (blocks (List.length m / 64) m).
  intros l. revert h Hh. induction l as [|b l IH]; intros h Hh; [exact Hh|].
  cbn [fold_left]. apply IH. unfold compress, sha256_process_block.
  repeat constructor; apply u32_range.
Qed.

Lemma update_wf data g :
  wf_ctx (sctx g) -> chunk_ok data -> wf_ctx (sctx (update data g)).
Proof.
  intros (H1 & H2 & H3 & H4 & H5) Hd.
  destruct (Hash_Update_spec data g H1 H2 H3 Hd) as (E1 & _ & E3 & E4 & E5 & _).
  unfold wf_ctx. rewrite E1, E5. repeat split; auto.
  - apply Z.mod_pos_bound. lia.
  - apply Z.mod_pos_bound. lia.
  - now apply hash_blocks_length.
  - now apply hash_blocks_u32.
Qed.

(** The context after [init] and any number of chunks is the one
    determined by the concatenated message. *)
Lemma update_absorbed bits m data g :
  wf_ctx (sctx g) -> absorbed bits m (sctx g) -> chunk_ok data ->
  absorbed bits (m ++ data) (sctx (update data g)).
Proof.
  intros (H1 & H2 & H3 & H4 & H5) (A1 & A2 & A3 & A4) Hd.
  assert (HL : Z.to_nat (ctx_length (sctx g) mod 64) = (List.length m mod 64)%nat).
  { rewrite A1. change (2 ^ 64) with (64 * 2 ^ 58).
    rewrite Z.rem_mul_r, Z.mul_comm, Z.mod_add, Z.mod_mod by lia.
    change 64 with (Z.of_nat 64). rewrite <- Nat2Z.inj_mod. apply Nat2Z.id. }
  destruct (Hash_Update_spec data g H1 H2 H3 Hd) as (E1 & E2 & _ & _ & E5 & E6 & _).
  rewrite HL, A3 in E1, E2.
  destruct (hash_blocks_app (H0_of bits) m data) as [F1 F2].
  unfold absorbed. rewrite E1, E5, E6, A1, A2, A4, F1, F2.
  repeat split; auto.
  - unfold u64. rewrite Z.add_mod_idemp_l by lia.
    rewrite length_app. f_equal. lia.
  - etransitivity; [|exact E2]. f_equal.
    now rewrite <- F2, pending_length.
Qed.

(** ** [Hash_Final]: padding *)

Lemma lxor_shiftl_add a b k :
  0 <= a < 2 ^ k -> 0 <= k -> Z.lxor a (Z.shiftl b k) = a + b * 2 ^ k.
Proof.
  intros Ha Hk. rewrite <- lor_shiftl_add by assumption.
  apply Z.lxor_lor. Z.bitblast. destruct (Z.lt_ge_cases i k).
  - rewrite (Z.testbit_neg_r b l) by lia. apply andb_false_r.
  - rewrite (testbit_high a k i) by lia. reflexivity.
Qed.

Ltac list_arith :=
  repeat (apply (f_equal2 (@cons Z)); [Z.div_mod_to_equations; lia|]);
  try reflexivity.

(** The two statements that append [0x80]: the bytes below position [k] of
    the word stay, byte [k] becomes [0x80], the bytes above become zero. *)
Lemma mask_word w k :
  (k < 4)%nat ->
  word_bytes (Z.lxor (Z.land w (not32 (shl32 0xFFFFFFFF (Z.of_nat k * 8))))
                     (shl32 0x80 (Z.of_nat k * 8)))
  = firstn k (word_bytes w) ++ [0x80] ++ repeat 0 (3 - k).
Proof.
  intros Hk. rewrite !word_bytes_arith.
  destruct k as [|[|[|[|k]]]]; [| | | |lia]; cbn [firstn repeat app Nat.sub].
  - change (not32 (shl32 0xFFFFFFFF (Z.of_nat 0 * 8))) with 0.
    change (shl32 0x80 (Z.of_nat 0 * 8)) with 128.
    rewrite Z.land_0_r. reflexivity.
  - change (not32 (shl32 0xFFFFFFFF (Z.of_nat 1 * 8))) with (Z.ones 8).
    change (shl32 0x80 (Z.of_nat 1 * 8)) with (Z.shiftl 128 8).
    rewrite Z.land_ones by lia.
    rewrite lxor_shiftl_add by (try apply Z.mod_pos_bound; lia).
    change (2 ^ 8) with 256. change (2 ^ 16) with 65536. change (2 ^ 24) with 16777216.
    list_arith.
  - change (not32 (shl32 0xFFFFFFFF (Z.of_nat 2 * 8))) with (Z.ones 16).
    change (shl32 0x80 (Z.of_nat 2 * 8)) with (Z.shiftl 128 16).
    rewrite Z.land_ones by lia.
    rewrite lxor_shiftl_add by (try apply Z.mod_pos_bound; lia).
    change (2 ^ 8) with 256. change (2 ^ 16) with 65536. change (2 ^ 24) with 16777216.
    list_arith.
  - change (not32 (shl32 0xFFFFFFFF (Z.of_nat 3 * 8))) with (Z.ones 24).
    change (shl32 0x80 (Z.of_nat 3 * 8)) with (Z.shiftl 128 24).
    rewrite Z.land_ones by lia.
    rewrite lxor_shiftl_add by (try apply Z.mod_pos_bound; lia).
    change (2 ^ 8) with 256. change (2 ^ 16) with 65536. change (2 ^ 24) with 16777216.
    list_arith.
Qed.

Lemma mask_word_u32 w k :
  (k < 4)%nat ->
  is_u32 (Z.lxor (Z.land w (not32 (shl32 0xFFFFFFFF (Z.of_nat k * 8))))
                 (shl32 0x80 (Z.of_nat k * 8))).
Proof.
  intros Hk. unfold is_u32.
  destruct k as [|[|[|[|k]]]]; [| | | |lia].
  - change (not32 (shl32 0xFFFFFFFF (Z.of_nat 0 * 8))) with 0.
    change (shl32 0x80 (Z.of_nat 0 * 8)) with 128.
    rewrite Z.land_0_r. cbn. lia.
  - change (not32 (shl32 0xFFFFFFFF (Z.of_nat 1 * 8))) with (Z.ones 8).
    change (shl32 0x80 (Z.of_nat 1 * 8)) with (Z.shiftl 128 8).
    rewrite Z.land_ones by lia.
    rewrite lxor_shiftl_add by (try apply Z.mod_pos_bound; lia).
    pose proof (Z.mod_pos_bound w (2 ^ 8)). lia.
  - change (not32 (shl32 0xFFFFFFFF (Z.of_nat 2 * 8))) with (Z.ones 16).
    change (shl32 0x80 (Z.of_nat 2 * 8)) with (Z.shiftl 128 16).
    rewrite Z.land_ones by lia.
    rewrite lxor_shiftl_add by (try apply Z.mod_pos_bound; lia).
    pose proof (Z.mod_pos_bound w (2 ^ 16)). lia.
  - change (not32 (shl32 0xFFFFFFFF (Z.of_nat 3 * 8))) with (Z.ones 24).
    change (shl32 0x80 (Z.of_nat 3 * 8)) with (Z.shiftl 128 24).
    rewrite Z.land_ones by lia.
    rewrite lxor_shiftl_add by (try apply Z.mod_pos_bound; lia).
    pose proof (Z.mod_pos_bound w (2 ^ 24)). lia.
Qed.

Lemma land_255_u8 x : is_u8 (Z.land x 255).
Proof.
  change 255 with (Z.ones 8). rewrite Z.land_ones by lia.
  apply Z.mod_pos_bound. lia.
Qed.

Lemma word_bytes_bswap w : word_bytes (bswap_32 w) = be_bytes w.
Proof.
  rewrite bswap_32_bytes.
  rewrite word_bytes_word by apply land_255_u8.
  unfold be_bytes. change 255 with (Z.ones 8).
  rewrite !Z.land_ones, !Z.shiftr_div_pow2 by lia. reflexivity.
Qed.

Lemma bswap_32_u32 w : is_u32 (bswap_32 w).
Proof.
  rewrite bswap_32_bytes. apply bytes_word_range; apply land_255_u8.
Qed.

(** The two length words are the bit count in big-endian order. *)
Lemma length_words n :
  is_u64 n ->
  word_bytes (bswap_32 (u32 (Z.shiftr n 29)))
    ++ word_bytes (bswap_32 (u32 (u64 (Z.shiftl n 3))))
  = be64 ((8 * n) mod 2 ^ 64).
Proof.
  intros Hn. rewrite !word_bytes_bswap. unfold be_bytes, be64, u32, u64.
  rewrite Z.shiftr_div_pow2, Z.shiftl_mul_pow2 by lia.
  unfold is_u64 in Hn.
  change (2 ^ 3) with 8. rewrite (Z.mul_comm n 8).
  cbn [app].
  change (2 ^ 8) with 256. change (2 ^ 16) with 65536. change (2 ^ 24) with 16777216.
  change (2 ^ 29) with 536870912. change (2 ^ 32) with 4294967296.
  change (2 ^ 40) with 1099511627776. change (2 ^ 48) with 281474976710656.
  change (2 ^ 56) with 72057594037927936. change (2 ^ 64) with 18446744073709551616 in *.
  list_arith.
Qed.

Lemma bytes_of_words_firstn n ws :
  bytes_of_words (firstn n ws) = firstn (4 * n) (bytes_of_words ws).
Proof.
  revert n. induction ws as [|w ws IH]; intros [|n]; try reflexivity.
  replace (4 * S n)%nat with (4 + 4 * n)%nat by lia.
  cbn [firstn]. change (bytes_of_words (w :: ?l)) with (word_bytes w ++ bytes_of_words l).
  rewrite IH. reflexivity.
Qed.

Lemma bytes_of_words_skipn n ws :
  bytes_of_words (skipn n ws) = skipn (4 * n) (bytes_of_words ws).
Proof.
  revert n. induction ws as [|w ws IH]; intros [|n]; try reflexivity.
  replace (4 * S n)%nat with (4 + 4 * n)%nat by lia.
  cbn [skipn]. change (bytes_of_words (w :: ?l)) with (word_bytes w ++ bytes_of_words l).
  rewrite IH. reflexivity.
Qed.

Lemma bytes_of_words_zeros n : bytes_of_words (repeat 0 n) = repeat 0 (4 * n).
Proof.
  induction n as [|n IH]; [reflexivity|].
  replace (4 * S n)%nat with (4 + 4 * n)%nat by lia.
  cbn [repeat]. change (bytes_of_words (0 :: ?l)) with (word_bytes 0 ++ bytes_of_words l).
  rewrite IH. reflexivity.
Qed.

Lemma firstn_add (l : list Z) a b :
  firstn (a + b) l = firstn a l ++ firstn b (skipn a l).
Proof.
  revert l. induction a as [|a IH]; intros [|x l]; cbn [Nat.add firstn skipn app];
    try reflexivity.
  - now rewrite firstn_nil.
  - now rewrite IH.
Qed.

Lemma word_at ws i :
  (i < List.length ws)%nat ->
  word_bytes (get ws i) = firstn 4 (skipn (4 * i) (bytes_of_words ws)).
Proof.
  intros Hi. rewrite <- bytes_of_words_skipn, (skipn_cons_get i ws Hi).
  change (bytes_of_words (?w :: ?l)) with (word_bytes w ++ bytes_of_words l).
  now rewrite firstn_app, firstn_all2, Nat.sub_diag, firstn_O, app_nil_r by reflexivity.
Qed.

Lemma upd_upd i v1 v2 a : upd i v2 (upd i v1 a) = upd i v2 a.
Proof.
  revert i. induction a as [|x a IH]; intros [|i]; simpl; try reflexivity.
  now rewrite IH.
Qed.

Lemma zero_fill_seq index n message :
  (index + n <= List.length message)%nat ->
  fold_left (fun m i => upd i 0 m) (seq index n) message =
  firstn index message ++ repeat 0 n ++ skipn (index + n) message.
Proof.
  induction n as [|n IH]; intros Hn.
  - cbn [seq fold_left repeat app]. rewrite Nat.add_0_r. symmetry. apply firstn_skipn.
  - rewrite seq_S, fold_left_app. cbn [fold_left]. rewrite IH by lia.
    rewrite (skipn_cons_get (index + n) message) by lia.
    rewrite app_assoc.
    replace (index + n)%nat with (List.length (firstn index message ++ repeat 0 n)) at 1
      by (rewrite length_app, length_firstn, repeat_length; lia).
    rewrite upd_app_mid. rewrite <- app_assoc.
    replace (S (index + n)) with (index + S n)%nat by lia.
    f_equal. change (0 :: ?l) with ([0] ++ l).
    rewrite app_assoc. f_equal. now rewrite <- repeat_cons.
Qed.

Lemma zero_fill_spec index to message :
  (index <= to <= List.length message)%nat ->
  zero_fill index to message =
  firstn index message ++ repeat 0 (to - index) ++ skipn to message.
Proof.
  intros H. unfold zero_fill. rewrite zero_fill_seq by lia.
  now replace (index + (to - index))%nat with to by lia.
Qed.

Lemma upd_tail2 l x y hi lo :
  List.length l = 14%nat -> upd 15 lo (upd 14 hi (l ++ [x; y])) = l ++ [hi; lo].
Proof.
  intros H.
  assert (E1 : upd 14 hi (l ++ [x; y]) = l ++ [hi; y])
    by (rewrite <- H; apply upd_app_mid).
  rewrite E1. change (l ++ [hi; y]) with (l ++ [hi] ++ [y]).
  change (l ++ [hi; lo]) with (l ++ [hi] ++ [lo]). rewrite !app_assoc.
  replace 15%nat with (List.length (l ++ [hi]))
    by (rewrite length_app, H; reflexivity).
  apply upd_app_mid.
Qed.

(** The message buffer and the hash as [final_pad] leaves them, from the
    sixteen words [ws], the pending length [L] and the counter [n]. *)
Lemma final_pad_words c :
  let ws := ctx_message c in
  let L := Z.to_nat (ctx_length c mod 64) in
  let idx := (L / 4)%nat in
  let w' := Z.lxor (Z.land (get ws idx) (not32 (shl32 0xFFFFFFFF (Z.of_nat (L mod 4) * 8))))
                   (shl32 0x80 (Z.of_nat (L mod 4) * 8)) in
  let hi := bswap_32 (u32 (Z.shiftr (ctx_length c) 29)) in
  let lo := bswap_32 (u32 (u64 (Z.shiftl (ctx_length c) 3))) in
  List.length ws = 16%nat -> is_u64 (ctx_length c) ->
  final_pad c =
  if (idx <=? 13)%nat
  then (firstn idx ws ++ [w'] ++ repeat 0 (13 - idx) ++ [hi; lo], ctx_hash c)
  else (repeat 0 14 ++ [hi; lo],
        sha256_process_block (ctx_hash c)
          (firstn idx ws ++ [w'] ++ repeat 0 (15 - idx))).
Proof.
  intros ws L idx w' hi lo Hl Hn. unfold final_pad.
  assert (HL : 0 <= ctx_length c mod 64 < 64) by (apply Z.mod_pos_bound; lia).
  rewrite index_mod by exact Hn.
  assert (Hidx : Z.shiftr (ctx_length c mod 64) 2 = Z.of_nat idx).
  { rewrite Z.shiftr_div_pow2 by lia. unfold idx, L.
    rewrite Nat2Z.inj_div, Z2Nat.id by lia. reflexivity. }
  assert (Hk : Z.land (u32 (ctx_length c)) 3 = Z.of_nat (L mod 4)).
  { unfold u32. change 3 with (Z.ones 2). rewrite Z.land_ones by lia.
    change (2 ^ 32) with (2 ^ 2 * 2 ^ 30). rewrite Z.rem_mul_r by lia.
    rewrite Z.mul_comm, Z.mod_add, Z.mod_mod by lia.
    unfold L. rewrite Nat2Z.inj_mod, Z2Nat.id by lia.
    change (Z.of_nat 4) with 4. change (2 ^ 2) with 4.
    change 64 with (4 * 16). rewrite Z.rem_mul_r by lia.
    rewrite Z.mul_comm, Z.mod_add, Z.mod_mod by lia. reflexivity. }
  rewrite Hidx, Hk, Nat2Z.id. fold ws.
  assert (Hi : (idx < 16)%nat).
  { unfold idx. apply Nat.Div0.div_lt_upper_bound. unfold L. lia. }
  rewrite get_upd_same, upd_upd by lia. fold w'. fold hi. fold lo.
  set (m1 := upd idx w' ws).
  assert (Hm1 : m1 = firstn idx ws ++ w' :: skipn (S idx) ws)
    by (apply upd_split; lia).
  assert (Hm1l : List.length m1 = 16%nat) by (unfold m1; now rewrite upd_length).
  assert (Hf : firstn (idx + 1) m1 = firstn idx ws ++ [w']).
  { rewrite Hm1. change (w' :: ?l) with ([w'] ++ l). rewrite app_assoc.
    rewrite firstn_app, firstn_all2 by (rewrite length_app, length_firstn; cbn [List.length]; lia).
    replace (idx + 1 - _)%nat with 0%nat
      by (rewrite length_app, length_firstn; cbn [List.length]; lia).
    now rewrite firstn_O, app_nil_r. }
  replace (Z.to_nat (Z.of_nat idx + 1)) with (idx + 1)%nat by lia.
  destruct (Nat.leb_spec idx 13) as [Hle|Hgt].
  - destruct (Z.ltb_spec 14 (Z.of_nat idx + 1)) as [?|_]; [lia|].
    replace (Z.to_nat (Z.of_nat idx + 1)) with (idx + 1)%nat by lia.
    rewrite zero_fill_spec by lia. rewrite Hf.
    replace (14 - (idx + 1))%nat with (13 - idx)%nat by lia.
    assert (Hs : exists x y, skipn 14 m1 = [x; y]).
    { assert (Hsl : List.length (skipn 14 m1) = 2%nat) by (rewrite length_skipn; lia).
      destruct (skipn 14 m1) as [|x [|y [|z t]]]; try discriminate. eauto. }
    destruct Hs as (x & y & ->).
    f_equal.
    set (l14 := (firstn idx ws ++ [w']) ++ repeat 0 (13 - idx)).
    assert (Hl14 : List.length l14 = 14%nat).
    { unfold l14. rewrite !length_app, length_firstn, repeat_length. cbn [List.length]. lia. }
    rewrite !app_assoc. fold l14. apply upd_tail2, Hl14.
  - destruct (Z.ltb_spec 14 (Z.of_nat idx + 1)) as [_|?]; [|lia].
    change (Z.to_nat 0) with 0%nat.
    rewrite (zero_fill_spec (idx + 1) 16) by lia. rewrite Hf.
    rewrite (skipn_all2 m1) by lia. rewrite app_nil_r.
    replace (16 - (idx + 1))%nat with (15 - idx)%nat by lia.
    set (b1 := (firstn idx ws ++ [w']) ++ repeat 0 (15 - idx)).
    assert (Hb1 : List.length b1 = 16%nat).
    { unfold b1. rewrite !length_app, length_firstn, repeat_length. cbn [List.length]. lia. }
    rewrite zero_fill_spec by lia.
    assert (Hs : exists x y, skipn 14 b1 = [x; y]).
    { assert (Hsl : List.length (skipn 14 b1) = 2%nat) by (rewrite length_skipn; lia).
      destruct (skipn 14 b1) as [|x [|y [|z t]]]; try discriminate. eauto. }
    destruct Hs as (x & y & ->).
    change (14 - 0)%nat with 14%nat. change (firstn 0 b1) with (@nil Z).
    cbn [app]. rewrite (upd_tail2 (repeat 0 14)) by reflexivity.
    unfold b1. now rewrite <- !app_assoc.
Qed.

Lemma firstn_u32 n ws : Forall is_u32 ws -> Forall is_u32 (firstn n ws).
Proof.
  intros H. revert n. induction H as [|w ws Hw _ IH]; intros [|n]; cbn [firstn];
    constructor; auto.
Qed.

Lemma zeros_u32 n : Forall is_u32 (repeat 0 n).
Proof. induction n; constructor; auto using is_u32_0. Qed.

(** The bytes of the block that ends the message proper: the pending bytes,
    [0x80], and zeros to the end of the words written. *)
Lemma head_bytes ws L z :
  List.length ws = 16%nat -> (L < 64)%nat ->
  bytes_of_words
    (firstn (L / 4) ws
       ++ [Z.lxor (Z.land (get ws (L / 4))
                          (not32 (shl32 0xFFFFFFFF (Z.of_nat (L mod 4) * 8))))
                  (shl32 0x80 (Z.of_nat (L mod 4) * 8))]
       ++ repeat 0 z)
  = firstn L (bytes_of_words ws) ++ [0x80] ++ repeat 0 (3 - L mod 4 + 4 * z).
Proof.
  intros Hl HL.
  assert (Hk : (L mod 4 < 4)%nat) by (apply Nat.mod_upper_bound; lia).
  assert (Hi : (L / 4 < 16)%nat) by (apply Nat.Div0.div_lt_upper_bound; lia).
  rewrite !bytes_of_words_app, bytes_of_words_firstn, bytes_of_words_zeros.
  change (bytes_of_words [?w]) with (word_bytes w ++ []). rewrite app_nil_r.
  rewrite mask_word by exact Hk. rewrite word_at by lia.
  rewrite firstn_firstn, Nat.min_l by lia.
  rewrite (Nat.div_mod_eq L 4) at 5. rewrite firstn_add.
  rewrite repeat_app, <- !app_assoc. reflexivity.
Qed.

Lemma tail_bytes z n :
  is_u64 n ->
  bytes_of_words (repeat 0 z ++ [bswap_32 (u32 (Z.shiftr n 29));
                                 bswap_32 (u32 (u64 (Z.shiftl n 3)))])
  = repeat 0 (4 * z) ++ be64 ((8 * n) mod 2 ^ 64).
Proof.
  intros Hn. rewrite bytes_of_words_app, bytes_of_words_zeros, <- length_words by exact Hn.
  change (bytes_of_words [?a; ?b]) with (word_bytes a ++ word_bytes b ++ []).
  now rewrite app_nil_r.
Qed.

Lemma padded_length p n :
  (List.length p < 64)%nat ->
  List.length (padded p n) = if (List.length p <=? 55)%nat then 64%nat else 128%nat.
Proof.
  intros Hp. unfold padded, zero_pad, be64.
  rewrite !length_app, repeat_length. cbn [List.length].
  destruct (Nat.leb_spec (List.length p) 55).
  - rewrite Z.mod_small by lia. lia.
  - replace (55 - Z.of_nat (List.length p)) with (119 - Z.of_nat (List.length p) + (-1) * 64) by lia.
    rewrite Z.mod_add, Z.mod_small by lia. lia.
Qed.

(** The padding rule: what [final_pad] and the compression that follows it
    compute is the hash of the padded tail, one block when at most 55 bytes
    are pending and two otherwise. *)
Lemma final_pad_spec c :
  let L := Z.to_nat (ctx_length c mod 64) in
  let p := firstn L (bytes_of_words (ctx_message c)) in
  List.length (ctx_message c) = 16%nat -> Forall is_u32 (ctx_message c) ->
  is_u64 (ctx_length c) ->
  sha256_process_block (snd (final_pad c)) (fst (final_pad c)) =
    hash_blocks (ctx_hash c) (padded p (ctx_length c)) /\
  List.length (fst (final_pad c)) = 16%nat /\ Forall is_u32 (fst (final_pad c)).
Proof.
  intros L p Hl Hu Hn.
  assert (HLz : 0 <= ctx_length c mod 64 < 64) by (apply Z.mod_pos_bound; lia).
  assert (HL : (L < 64)%nat) by (unfold L; lia).
  assert (Hk : (L mod 4 < 4)%nat) by (apply Nat.mod_upper_bound; lia).
  assert (Hdm : L = (4 * (L / 4) + L mod 4)%nat) by apply Nat.div_mod_eq.
  assert (Hpl : List.length p = L).
  { unfold p. rewrite length_firstn, bytes_of_words_length, Hl. lia. }
  rewrite final_pad_words by assumption. fold L.
  set (w' := Z.lxor _ _).
  assert (Hw' : is_u32 w') by (apply mask_word_u32; exact Hk).
  destruct (Nat.leb_spec (L / 4) 13) as [Hle|Hgt]; cbn [fst snd].
  - split; [|split].
    + rewrite compress_message.
      2:{ repeat (apply Forall_app; split); auto using firstn_u32, zeros_u32.
          repeat constructor; apply bswap_32_u32. }
      rewrite <- hash_blocks_exact.
      2:{ rewrite bytes_of_words_length, !length_app, length_firstn, repeat_length, Hl.
          cbn [List.length]. lia. }
      f_equal. rewrite !app_assoc, bytes_of_words_app, <- !app_assoc.
      unfold w'. rewrite head_bytes by assumption.
      change (bytes_of_words [?a; ?b]) with (bytes_of_words (repeat 0 0 ++ [a; b])).
      rewrite tail_bytes by exact Hn.
      change (repeat 0 (4 * 0)) with (@nil Z).
      assert (Hz : zero_pad L = (3 - L mod 4 + 4 * (13 - L / 4))%nat)
        by (unfold zero_pad; rewrite Z.mod_small by lia; lia).
      unfold padded. fold p. rewrite Hpl, Hz, <- !app_assoc. reflexivity.
    + rewrite !length_app, length_firstn, repeat_length, Hl. cbn [List.length]. lia.
    + repeat (apply Forall_app; split); auto using firstn_u32, zeros_u32.
      repeat constructor; apply bswap_32_u32.
  - assert (Hb1 : Forall is_u32 (firstn (L / 4) (ctx_message c) ++ [w'] ++ repeat 0 (15 - L / 4))).
    { repeat (apply Forall_app; split); auto using firstn_u32, zeros_u32. }
    assert (Hb2 : Forall is_u32 (repeat 0 14 ++
                   [bswap_32 (u32 (Z.shiftr (ctx_length c) 29));
                    bswap_32 (u32 (u64 (Z.shiftl (ctx_length c) 3)))])).
    { apply Forall_app; split; [apply zeros_u32|].
      repeat constructor; apply bswap_32_u32. }
    split; [|split; [reflexivity|exact Hb2]].
    rewrite !compress_message by assumption.
    unfold w'. rewrite head_bytes, tail_bytes by assumption.
    set (b1 := firstn L _ ++ _). set (b2 := repeat 0 (4 * 14) ++ _).
    assert (Hb1l : List.length b1 = 64%nat).
    { unfold b1. rewrite !length_app, length_firstn, repeat_length, bytes_of_words_length, Hl.
      cbn [List.length]. lia. }
    assert (Hb2l : List.length b2 = 64%nat) by reflexivity.
    rewrite <- (hash_blocks_exact _ b2), <- hash_blocks_cons by assumption.
    assert (Hz : zero_pad L = (3 - L mod 4 + 4 * (15 - L / 4) + 4 * 14)%nat).
    { unfold zero_pad.
      replace (55 - Z.of_nat L) with (119 - Z.of_nat L + (-1) * 64) by lia.
      rewrite Z.mod_add, Z.mod_small by lia. lia. }
    f_equal. unfold b1, b2, padded. fold p.
    rewrite Hpl, Hz, !repeat_app, <- !app_assoc. reflexivity.
Qed.

(** ** [Hash_Final]: the digest *)

Lemma Hash_Final_eq g :
  let c := sctx g in
  let hash := bswap_hash (sha256_process_block (snd (final_pad c)) (fst (final_pad c))) in
  Hash_Final g =
  Globals (write_digest hash (Z.to_nat (ctx_digest_length c)) (main_buffer g))
          (Ctx (fst (final_pad c)) (ctx_length c) hash (ctx_digest_length c)).
Proof. intros c hash. unfold Hash_Final. fold c. subst hash. now destruct (final_pad c). Qed.

Lemma bswap_hash_map h : List.length h = 8%nat -> bswap_hash h = map bswap_32 h.
Proof.
  intros H. do 8 (destruct h as [|? h]; [discriminate|]).
  destruct h; [reflexivity|discriminate].
Qed.

Lemma process_block_length h b : List.length (sha256_process_block h b) = 8%nat.
Proof. reflexivity. Qed.

Lemma process_block_u32 h b : Forall is_u32 (sha256_process_block h b).
Proof. unfold sha256_process_block. repeat constructor; apply u32_range. Qed.

Lemma serialize_bswap h : bytes_of_words (map bswap_32 h) = serialize h.
Proof.
  induction h as [|w h IH]; [reflexivity|].
  cbn [map]. change (bytes_of_words (?x :: ?l)) with (word_bytes x ++ bytes_of_words l).
  rewrite IH, word_bytes_bswap. reflexivity.
Qed.

Lemma serialize_length h : List.length (serialize h) = (4 * List.length h)%nat.
Proof.
  induction h as [|w h IH]; [reflexivity|].
  change (serialize (w :: h)) with (be_bytes w ++ serialize h).
  rewrite length_app, IH. cbn [List.length be_bytes]. lia.
Qed.

Lemma write_digest_at hash n buf j :
  write_digest hash n buf j = if (j <? n)%nat then load8 hash j else buf j.
Proof.
  unfold write_digest. induction n as [|n IH]; [reflexivity|].
  rewrite seq_S, fold_left_app. cbn [fold_left Nat.add].
  destruct (Nat.eqb_spec j n) as [->|Hne].
  - destruct (Nat.ltb_spec n (S n)); [reflexivity|lia].
  - rewrite IH. destruct (Nat.ltb_spec j n), (Nat.ltb_spec j (S n)); try lia; reflexivity.
Qed.

Lemma digest_read hash n buf :
  (n <= List.length (bytes_of_words hash))%nat ->
  map (write_digest hash n buf) (seq 0 n) = firstn n (bytes_of_words hash).
Proof.
  intros Hn.
  change (firstn n (bytes_of_words hash))
    with (firstn n (skipn 0 (bytes_of_words hash))).
  rewrite <- (holds_read (get (bytes_of_words hash)) (bytes_of_words hash) 0 n);
    [|intros i _; reflexivity|lia].
  apply map_ext_in. intros j Hj. apply in_seq in Hj.
  rewrite write_digest_at. destruct (Nat.ltb_spec j n); [reflexivity|lia].
Qed.

(** [Hash_Final] leaves in the buffer the first [digest_length] bytes of
    the big-endian serialisation of the hash of the padded tail. *)
Lemma Hash_Final_spec g :
  let c := sctx g in
  let L := Z.to_nat (ctx_length c mod 64) in
  let p := firstn L (bytes_of_words (ctx_message c)) in
  wf_ctx c -> 0 <= ctx_digest_length c <= 32 ->
  final g =
  firstn (Z.to_nat (ctx_digest_length c))
    (serialize (hash_blocks (ctx_hash c) (padded p (ctx_length c)))).
Proof.
  intros c L p (H1 & H2 & H3 & H4 & H5) Hd.
  destruct (final_pad_spec c H1 H2 H3) as (E & _ & _).
  unfold final, digest. rewrite Hash_Final_eq. cbn [sctx main_buffer ctx_digest_length].
  fold c. rewrite E. fold L. fold p.
  set (h := hash_blocks (ctx_hash c) (padded p (ctx_length c))).
  assert (Hh : List.length h = 8%nat) by (apply hash_blocks_length, H4).
  rewrite bswap_hash_map by exact Hh.
  rewrite digest_read by (rewrite bytes_of_words_length, length_map, Hh; lia).
  now rewrite serialize_bswap.
Qed.

(** ** From [init] to [final] *)

Lemma copy_h0_eq H0 hash :
  List.length H0 = 8%nat -> List.length hash = 8%nat -> copy_h0 H0 hash = H0.
Proof.
  intros HH Hh. do 8 (destruct H0 as [|? H0]; [discriminate|]).
  destruct H0; [|discriminate].
  do 8 (destruct hash as [|? hash]; [discriminate|]).
  destruct hash; [reflexivity|discriminate].
Qed.

Lemma H0_u32 bits : Forall is_u32 (H0_of bits).
Proof.
  unfold H0_of, is_u32. destruct (bits =? 224); repeat constructor; cbn; lia.
Qed.

Lemma init_ctx bits g :
  List.length (ctx_hash (sctx g)) = 8%nat ->
  sctx (init bits g) =
  Ctx (ctx_message (sctx g)) 0 (H0_of bits) (digest_length_of bits).
Proof.
  intros Hh. unfold init, Hash_Init, H0_of, digest_length_of.
  destruct (bits =? 224); cbn [snd sctx]; unfold sha224_init, sha256_init;
    now rewrite copy_h0_eq.
Qed.

Lemma init_wf bits g : wf_ctx (sctx g) -> wf_ctx (sctx (init bits g)).
Proof.
  intros (H1 & H2 & H3 & H4 & H5). rewrite init_ctx by exact H4.
  unfold wf_ctx, is_u64. cbn [ctx_message ctx_length ctx_hash].
  repeat split; auto using H0_u32; try lia.
  unfold H0_of. now destruct (bits =? 224).
Qed.

Lemma init_absorbed bits g :
  wf_ctx (sctx g) -> absorbed bits [] (sctx (init bits g)).
Proof.
  intros (H1 & H2 & H3 & H4 & H5). rewrite init_ctx by exact H4.
  unfold absorbed. cbn [ctx_message ctx_length ctx_hash ctx_digest_length List.length].
  repeat split; reflexivity.
Qed.

Lemma updates_absorbed bits cs : forall m g,
  wf_ctx (sctx g) -> absorbed bits m (sctx g) -> Forall chunk_ok cs ->
  wf_ctx (sctx (updates cs g)) /\
  absorbed bits (m ++ List.concat cs) (sctx (updates cs g)).
Proof.
  induction cs as [|c cs IH]; intros m g Hw Ha Hc.
  - change (updates [] g) with g. change (List.concat []) with (@nil Z).
    now rewrite app_nil_r.
  - inversion Hc as [|? ? Hc1 Hc2]; subst.
    change (updates (c :: cs) g) with (updates cs (update c g)).
    change (List.concat (c :: cs)) with (c ++ List.concat cs). rewrite app_assoc.
    apply IH; auto using update_wf, update_absorbed.
Qed.

Lemma digest_length_range bits : 0 <= digest_length_of bits <= 32.
Proof.
  unfold digest_length_of, sha224_hash_size, sha256_hash_size.
  destruct (bits =? 224); lia.
Qed.

Lemma absorbed_final bits m g :
  wf_ctx (sctx g) -> absorbed bits m (sctx g) ->
  final g = sha2 (H0_of bits) (Z.to_nat (digest_length_of bits)) m.
Proof.
  intros Hw (A1 & A2 & A3 & A4).
  rewrite Hash_Final_spec by (auto; rewrite A4; apply digest_length_range).
  assert (HL : Z.to_nat (ctx_length (sctx g) mod 64) = (List.length m mod 64)%nat).
  { rewrite A1. change (2 ^ 64) with (64 * 2 ^ 58).
    rewrite Z.rem_mul_r, Z.mul_comm, Z.mod_add, Z.mod_mod by lia.
    change 64 with (Z.of_nat 64). rewrite <- Nat2Z.inj_mod. apply Nat2Z.id. }
  rewrite HL, A3, A2, A4, A1. reflexivity.
Qed.

(** The engine computes [sha2] of the concatenated chunks. *)
Lemma engine_correct bits cs g :
  wf_ctx (sctx g) -> Forall chunk_ok cs ->
  final (updates cs (init bits g)) =
  sha2 (H0_of bits) (Z.to_nat (digest_length_of bits)) (List.concat cs).
Proof.
  intros Hw Hc.
  destruct (updates_absorbed bits cs [] (init bits g)
              (init_wf bits g Hw) (init_absorbed bits g Hw) Hc) as [Hw' Ha].
  now apply absorbed_final.
Qed.

(** ** States used in examples *)

Lemma boot_wf : wf_ctx (sctx boot).
Proof.
  unfold wf_ctx, is_u64. cbn [sctx boot ctx_message ctx_length ctx_hash].
  repeat split; try reflexivity; try lia; apply zeros_u32.
Qed.

(** Range checks by computation, for concrete data. *)
Lemma u8_check l :
  forallb (fun x => (0 <=? x) && (x <? 2 ^ 8)) l = true -> Forall is_u8 l.
Proof.
  intros H. apply Forall_forall. intros x Hx.
  rewrite forallb_forall in H. specialize (H x Hx).
  apply andb_true_iff in H. unfold is_u8. lia.
Qed.

Lemma u32_check l :
  forallb (fun x => (0 <=? x) && (x <? 2 ^ 32)) l = true -> Forall is_u32 l.
Proof.
  intros H. apply Forall_forall. intros x Hx.
  rewrite forallb_forall in H. specialize (H x Hx).
  apply andb_true_iff in H. unfold is_u32. lia.
Qed.

Lemma chunk_check data :
  forallb (fun x => (0 <=? x) && (x <? 2 ^ 8)) data = true ->
  (Z.of_nat (List.length data) <=? MAIN_BUFFER_SIZE) = true -> chunk_ok data.
Proof. intros H1 H2. split; [now apply u8_check|lia]. Qed.

Lemma chunks_check (cs : list (list Z)) :
  forallb (fun data => forallb (fun x => (0 <=? x) && (x <? 2 ^ 8)) data
                       && (Z.of_nat (List.length data) <=? MAIN_BUFFER_SIZE)) cs = true ->
  Forall chunk_ok cs.
Proof.
  intros H. apply Forall_forall. intros c Hc.
  rewrite forallb_forall in H. specialize (H c Hc).
  apply andb_true_iff in H. destruct H. now apply chunk_check.
Qed.

Lemma chunk_ok_nil : chunk_ok [].
Proof. split; [constructor|]. cbn. unfold MAIN_BUFFER_SIZE. lia. Qed.

Lemma chunk_ok_abc : chunk_ok abc.
Proof.
  split; [repeat constructor; unfold is_u8; lia|].
  cbn. unfold MAIN_BUFFER_SIZE. lia.
Qed.

Lemma chunk_ok_big : chunk_ok big_chunk.
Proof.
  unfold chunk_ok, big_chunk. rewrite repeat_length. split.
  - apply Forall_forall. intros x Hx. apply repeat_spec in Hx. subst. apply is_u8_0.
  - rewrite Z2Nat.id; unfold MAIN_BUFFER_SIZE; lia.
Qed.

Lemma Hash_Final_wf g : wf_ctx (sctx g) -> wf_ctx (sctx (Hash_Final g)).
Proof.
  intros (H1 & H2 & H3 & H4 & H5).
  destruct (final_pad_spec (sctx g) H1 H2 H3) as (_ & E1 & E2).
  rewrite Hash_Final_eq. unfold wf_ctx. cbn [sctx ctx_message ctx_length ctx_hash].
  rewrite bswap_hash_map by apply process_block_length.
  split; [exact E1|]. split; [exact E2|]. split; [exact H3|]. split.
  - rewrite length_map. apply process_block_length.
  - apply Forall_forall. intros x Hx. apply in_map_iff in Hx.
    destruct Hx as (y & <- & _). apply bswap_32_u32.
Qed.

Lemma updates_one data g : updates [data] g = update data g.
Proof. reflexivity. Qed.

Lemma concat_one (data : list Z) : List.concat [data] = data.
Proof. cbn [List.concat]. apply app_nil_r. Qed.

Lemma concat_empties (cs : list (list Z)) :
  Forall (fun c => c = []) cs -> List.concat cs = [].
Proof. induction 1 as [|c cs -> _ IH]; [reflexivity|exact IH]. Qed.

Lemma empties_ok (cs : list (list Z)) :
  Forall (fun c => c = []) cs -> Forall chunk_ok cs.
Proof.
  intros H. eapply Forall_impl; [|exact H]. intros c ->. apply chunk_ok_nil.
Qed.

(** The byte counter after [k] full buffers. *)
Lemma absorb_big k g :
  wf_ctx (sctx g) ->
  wf_ctx (sctx (N.iter k (update big_chunk) g)) /\
  ctx_length (sctx (N.iter k (update big_chunk) g)) =
    (ctx_length (sctx g) + Z.of_N k * MAIN_BUFFER_SIZE) mod 2 ^ 64.
Proof.
  intros Hw. induction k as [|k [IHw IHl]] using N.peano_ind.
  - cbn [N.iter]. split; [exact Hw|].
    destruct Hw as (_ & _ & H3 & _). rewrite Z.add_0_r, Z.mod_small; [reflexivity|exact H3].
  - rewrite N.iter_succ. split; [apply update_wf; [exact IHw|apply chunk_ok_big]|].
    destruct IHw as (H1 & H2 & H3 & _).
    destruct (Hash_Update_spec big_chunk _ H1 H2 H3 chunk_ok_big)
      as (_ & _ & _ & _ & E & _).
    rewrite E, IHl. unfold u64, big_chunk. rewrite repeat_length, Z2Nat.id
      by (unfold MAIN_BUFFER_SIZE; lia).
    rewrite Z.add_mod_idemp_l by lia. f_equal. lia.
Qed.

(** The last two words [Hash_Final] stores are the bit count. *)
Lemma final_length_words c :
  List.length (ctx_message c) = 16%nat -> is_u64 (ctx_length c) ->
  bytes_of_words (skipn 14 (fst (final_pad c))) = be64 ((8 * ctx_length c) mod 2 ^ 64).
Proof.
  intros Hl Hn. rewrite final_pad_words by assumption.
  set (L := Z.to_nat (ctx_length c mod 64)).
  assert (HLz : 0 <= ctx_length c mod 64 < 64) by (apply Z.mod_pos_bound; lia).
  assert (Hi : (L / 4 < 16)%nat).
  { apply Nat.Div0.div_lt_upper_bound. unfold L. lia. }
  rewrite <- (length_words _ Hn).
  destruct (Nat.leb_spec (L / 4) 13) as [Hle|Hgt]; cbn [fst].
  - rewrite !app_assoc, skipn_app, skipn_all2.
    2:{ rewrite !length_app, length_firstn, repeat_length, Hl. cbn [List.length]. lia. }
    replace (14 - _)%nat with 0%nat.
    2:{ rewrite !length_app, length_firstn, repeat_length, Hl. cbn [List.length]. lia. }
    cbn [app skipn]. change (bytes_of_words [?a; ?b]) with (word_bytes a ++ word_bytes b ++ []).
    now rewrite app_nil_r.
  - change (skipn 14 (repeat 0 14 ++ ?l)) with l.
    change (bytes_of_words [?a; ?b]) with (word_bytes a ++ word_bytes b ++ []).
    now rewrite app_nil_r.
Qed.

Lemma length_counter_wraps_aux data g :
  wf_ctx (sctx g) -> chunk_ok data ->
  ctx_length (sctx (update data g)) =
    (ctx_length (sctx g) + Z.of_nat (List.length data)) mod 2 ^ 64 /\
  bytes_of_words (skipn 14 (ctx_message (sctx (Hash_Final g)))) =
    be64 ((8 * ctx_length (sctx g)) mod 2 ^ 64).
Proof.
  intros (H1 & H2 & H3 & H4 & H5) Hd.
  destruct (Hash_Update_spec data g H1 H2 H3 Hd) as (_ & _ & _ & _ & E5 & _).
  split; [exact E5|].
  rewrite Hash_Final_eq. cbn [sctx ctx_message].
  now apply final_length_words.
Qed.

(** * The claims *)

(** C1. Chunking invariance: for every message given as chunks the host can
    hand over (bytes, each chunk and the whole message no longer than the
    staging buffer; empty chunks and the empty message included), from any
    well-formed state, [init; update c1; ...; update ck; final] yields the
    same digest as [init; update (c1 ++ ... ++ ck); final]. *)
Theorem chunking_invariance bits (chunks : list (list Z)) g :
  wf_ctx (sctx g) -> Forall chunk_ok chunks -> chunk_ok (List.concat chunks) ->
  final (updates chunks (init bits g)) =
  final (update (List.concat chunks) (init bits g)).
Proof.
  intros Hw Hc Hm.
  rewrite <- (updates_one (List.concat chunks)).
  rewrite !engine_correct by (auto; repeat constructor; auto).
  now rewrite concat_one.
Qed.

Lemma chunking_invariance_witness :
  final (updates [[97]; []; [98; 99]] (init 256 boot)) =
  final (update (List.concat [[97]; []; [98; 99]]) (init 256 boot)).
Proof.
  apply chunking_invariance.
  - exact boot_wf.
  - apply chunks_check. reflexivity.
  - apply chunk_check; reflexivity.
Defined.

(** C2. Known answer: [init(SHA256); update("abc"); final()] produces the
    digest ba7816bf...f20015ad, whatever the state before [init]. *)
Theorem sha256_abc g :
  wf_ctx (sctx g) ->
  hex (final (update abc (init 256 g))) =
  "ba7816bf8f01cfea414140de5dae2223b00361a396177a9cb410ff61f20015ad"%string.
Proof.
  intros Hw. rewrite <- updates_one.
  rewrite engine_correct by (auto; repeat constructor; apply chunk_ok_abc).
  vm_compute. reflexivity.
Qed.

Lemma sha256_abc_witness :
  hex (final (update abc (init 256 boot))) =
  "ba7816bf8f01cfea414140de5dae2223b00361a396177a9cb410ff61f20015ad"%string.
Proof. apply sha256_abc. exact boot_wf. Defined.

(** C3. The compression function of the source (16-word circular schedule
    buffer, [ROUND] called with rotated variables) computes, for every state
    of 32-bit words and every 64-byte block as it lies in memory, the state
    the specification's definition computes from the full schedule
    [W[0..63]], sixty-four rounds and the final additions. *)
Theorem compression_refines_fips hash block :
  Forall is_u32 hash -> Forall is_u8 block -> List.length block = 64%nat ->
  sha256_process_block hash (words_of_bytes block) = Fips.compress hash block.
Proof. exact (process_block_refines hash block). Qed.

Lemma compression_refines_fips_witness :
  sha256_process_block SHA256_H0 (words_of_bytes (padded abc 3)) =
  Fips.compress SHA256_H0 (padded abc 3).
Proof.
  apply compression_refines_fips.
  - apply u32_check. reflexivity.
  - apply u8_check. reflexivity.
  - reflexivity.
Defined.

(** C4. The padding rule of [Hash_Final]: with [L = length mod 64] bytes
    pending, the hash the context holds afterwards is the (byte-swapped)
    result of compressing, block by block, the [L] pending bytes followed by
    [0x80], by [z] zero bytes with [L + 1 + z = 56 (mod 64)], and by the bit
    count [8 * length] as a 64-bit big-endian integer; that is one block
    when [L <= 55] and two when [L >= 56]. *)
Theorem final_padding_rule g :
  let c := sctx g in
  let L := Z.to_nat (Z.land (u32 (ctx_length c)) 63) in
  let p := firstn L (bytes_of_words (ctx_message c)) in
  let z := zero_pad L in
  let X := p ++ [0x80] ++ repeat 0 z ++ be64 ((8 * ctx_length c) mod 2 ^ 64) in
  let k := if (L <=? 55)%nat then 1%nat else 2%nat in
  wf_ctx c ->
  Z.of_nat L = ctx_length c mod 64 /\
  (z < 64)%nat /\ Z.of_nat (L + 1 + z) mod 64 = 56 /\
  List.length X = (64 * k)%nat /\
  ctx_hash (sctx (Hash_Final g)) =
    map bswap_32 (fold_left compress (blocks k X) (ctx_hash c)) /\
  (ctx_length c < 2 ^ 61 -> (8 * ctx_length c) mod 2 ^ 64 = 8 * ctx_length c).
Proof.
  intros c L p z X k (H1 & H2 & H3 & H4 & H5).
  assert (HLz : 0 <= ctx_length c mod 64 < 64) by (apply Z.mod_pos_bound; lia).
  assert (HL : L = Z.to_nat (ctx_length c mod 64)) by (unfold L; now rewrite index_mod).
  assert (Hpl : List.length p = L).
  { unfold p. rewrite length_firstn, bytes_of_words_length, H1. lia. }
  assert (HX : X = padded p (ctx_length c)) by (unfold X, padded, z; now rewrite Hpl).
  assert (HXl : List.length X = (64 * k)%nat).
  { rewrite HX, padded_length by lia. rewrite Hpl. unfold k.
    now destruct (L <=? 55)%nat. }
  assert (Hz : (z < 64)%nat /\ Z.of_nat (L + 1 + z) mod 64 = 56).
  { unfold z, zero_pad.
    pose proof (Z.mod_pos_bound (55 - Z.of_nat L) 64 ltac:(lia)) as Hb.
    split; [lia|].
    rewrite !Nat2Z.inj_add, Z2Nat.id by lia. change (Z.of_nat 1) with 1.
    rewrite Z.add_mod_idemp_r by lia.
    replace (Z.of_nat L + 1 + (55 - Z.of_nat L)) with 56 by lia. reflexivity. }
  split; [lia|]. split; [apply Hz|]. split; [apply Hz|]. split; [exact HXl|]. split.
  - destruct (final_pad_spec c H1 H2 H3) as (E & _ & _).
    rewrite Hash_Final_eq. cbn [sctx ctx_hash]. fold c. rewrite E.
    rewrite bswap_hash_map by (apply hash_blocks_length, H4).
    rewrite <- HL. fold p. rewrite <- HX. unfold hash_blocks. rewrite HXl.
    now rewrite Nat.mul_comm, Nat.div_mul by lia.
  - intros Hlt. apply Z.mod_small. unfold is_u64 in H3. lia.
Qed.

Lemma final_padding_rule_witness :
  ctx_hash (sctx (Hash_Final (update abc (init 256 boot)))) =
  map bswap_32
    (fold_left compress
       (blocks 1 (abc ++ [0x80] ++ repeat 0 52 ++ be64 24)) SHA256_H0).
Proof.
  apply (final_padding_rule (update abc (init 256 boot))).
  apply update_wf; [apply init_wf, boot_wf|apply chunk_ok_abc].
Defined.

(** C5 (amended). [init(SHA256)] followed by [final()], with no [update] or
    only empty ones in between, produces the 32-byte digest
    e3b0c442...7852b855. (The specification's "canonical" string lacks the
    last digit and is not what is produced: see
    [empty_digest_not_canonical].) *)
Theorem sha256_empty (chunks : list (list Z)) g :
  wf_ctx (sctx g) -> Forall (fun c => c = []) chunks ->
  hex (final (updates chunks (init 256 g))) =
  "e3b0c44298fc1c149afbf4c8996fb92427ae41e4649b934ca495991b7852b855"%string /\
  List.length (final (updates chunks (init 256 g))) = 32%nat.
Proof.
  intros Hw Hc.
  rewrite engine_correct by auto using empties_ok.
  rewrite concat_empties by exact Hc.
  vm_compute. split; reflexivity.
Qed.

Lemma sha256_empty_witness :
  hex (final (updates [[]; []] (init 256 boot))) =
  "e3b0c44298fc1c149afbf4c8996fb92427ae41e4649b934ca495991b7852b855"%string /\
  List.length (final (updates [[]; []] (init 256 boot))) = 32%nat.
Proof.
  apply sha256_empty; [exact boot_wf|].
  apply Forall_cons; [reflexivity|]. apply Forall_cons; [reflexivity|]. apply Forall_nil.
Defined.

(** C5, as stated, fails: the digest of the empty message is not the
    63-character string the specification calls canonical. *)
Lemma empty_digest_not_canonical :
  hex (final (init 256 boot)) <> spec_canonical_empty.
Proof. apply String.eqb_neq. vm_compute. reflexivity. Qed.

(** C6 (amended). [init(SHA224); update("abc"); final()] produces the
    28-byte digest 23097d22...e36c9da7. *)
Theorem sha224_abc g :
  wf_ctx (sctx g) ->
  hex (final (update abc (init 224 g))) =
  "23097d223405d8228642a477bda255b32aadbce4bda0b3f7e36c9da7"%string /\
  List.length (final (update abc (init 224 g))) = 28%nat.
Proof.
  intros Hw. rewrite <- updates_one.
  rewrite engine_correct by (auto; repeat constructor; apply chunk_ok_abc).
  vm_compute. split; reflexivity.
Qed.

Lemma sha224_abc_witness :
  hex (final (update abc (init 224 boot))) =
  "23097d223405d8228642a477bda255b32aadbce4bda0b3f7e36c9da7"%string /\
  List.length (final (update abc (init 224 boot))) = 28%nat.
Proof. apply sha224_abc. exact boot_wf. Defined.

(** C6, as stated, fails: the digest is not the 55-character string of the
    specification. *)
Lemma sha224_abc_not_spec_string :
  hex (final (update abc (init 224 boot))) <> spec_sha224_abc.
Proof. apply String.eqb_neq. vm_compute. reflexivity. Qed.

(** C7. State invariant: after [init] and any number of [update] calls that
    absorbed the message [m] in all, the pending length the code derives
    from its counter is [|m| mod 64], below 64; the first that many bytes of
    the message buffer are the bytes of [m] after its last completed block;
    and the hash is the result of one compression per completed 64-byte
    block of [m], in order. *)
Theorem pending_invariant bits (chunks : list (list Z)) g :
  wf_ctx (sctx g) -> Forall chunk_ok chunks ->
  let m := List.concat chunks in
  let c := sctx (updates chunks (init bits g)) in
  let index := Z.land (u32 (ctx_length c)) 63 in
  ctx_length c = Z.of_nat (List.length m) mod 2 ^ 64 /\
  index = ctx_length c mod 64 /\
  index = Z.of_nat (List.length m) mod 64 /\
  0 <= index < 64 /\
  firstn (Z.to_nat index) (bytes_of_words (ctx_message c)) =
    skipn (64 * (List.length m / 64)) m /\
  ctx_hash c =
    fold_left compress (blocks (List.length m / 64) m) (H0_of bits).
Proof.
  intros Hw Hc m c index.
  destruct (updates_absorbed bits chunks [] (init bits g)
              (init_wf bits g Hw) (init_absorbed bits g Hw) Hc)
    as [(_ & _ & H3 & _) (A1 & A2 & A3 & A4)].
  cbn [app] in A1, A2, A3. fold m in A1, A2, A3. fold c in H3, A1, A2, A3.
  assert (Hi : index = Z.of_nat (List.length m) mod 64).
  { unfold index. rewrite index_mod by exact H3. rewrite A1.
    change (2 ^ 64) with (64 * 2 ^ 58).
    rewrite Z.rem_mul_r, Z.mul_comm, Z.mod_add, Z.mod_mod by lia. reflexivity. }
  split; [exact A1|]. split; [apply index_mod, H3|]. split; [exact Hi|].
  split; [rewrite Hi; apply Z.mod_pos_bound; lia|]. split; [|exact A2].
  rewrite Hi. change 64 with (Z.of_nat 64) at 1.
  rewrite <- Nat2Z.inj_mod, Nat2Z.id. exact A3.
Qed.

Lemma pending_invariant_witness :
  let c := sctx (updates [[97]; []; [98; 99]] (init 256 boot)) in
  Z.land (u32 (ctx_length c)) 63 = 3 /\
  firstn 3 (bytes_of_words (ctx_message c)) = abc.
Proof.
  destruct (pending_invariant 256 [[97]; []; [98; 99]] boot boot_wf
              ltac:(apply chunks_check; reflexivity))
    as (_ & _ & H3 & _ & H5 & _).
  split; [exact H3|]. rewrite H3 in H5. exact H5.
Defined.

(** C8 (amended). The source has no finalized state: [Hash_Final] leaves
    the byte counter as it was, and an [update] after it is absorbed like
    any other, from the context [Hash_Final] left (its hash words
    byte-swapped): the counter grows by the chunk length, and the hash is
    what compressing the completed blocks of "pending bytes then chunk"
    gives. No error is raised. *)
Theorem update_after_final data g :
  wf_ctx (sctx g) -> chunk_ok data ->
  let g1 := Hash_Final g in
  let L := Z.to_nat (ctx_length (sctx g1) mod 64) in
  let p := firstn L (bytes_of_words (ctx_message (sctx g1))) in
  ctx_length (sctx g1) = ctx_length (sctx g) /\
  ctx_length (sctx (update data g1)) =
    u64 (ctx_length (sctx g) + Z.of_nat (List.length data)) /\
  ctx_hash (sctx (update data g1)) = hash_blocks (ctx_hash (sctx g1)) (p ++ data) /\
  wf_ctx (sctx (update data g1)).
Proof.
  intros Hw Hd g1 L p.
  assert (Hw1 : wf_ctx (sctx g1)) by apply Hash_Final_wf, Hw.
  assert (El : ctx_length (sctx g1) = ctx_length (sctx g))
    by (unfold g1; now rewrite Hash_Final_eq).
  destruct Hw1 as (H1 & H2 & H3 & H4 & H5).
  destruct (Hash_Update_spec data g1 H1 H2 H3 Hd) as (E1 & _ & _ & _ & E5 & _).
  split; [exact El|]. split; [now rewrite E5, El|]. split; [exact E1|].
  apply update_wf; [|exact Hd]. unfold wf_ctx. auto.
Qed.

Lemma update_after_final_witness :
  ctx_length (sctx (update abc (Hash_Final (init 256 boot)))) = u64 (0 + 3).
Proof.
  apply (update_after_final abc (init 256 boot)).
  - apply init_wf, boot_wf.
  - apply chunk_ok_abc.
Defined.

(** C8, as stated, fails: after [init; final], an [update] with "abc" is
    not rejected; it changes the context (three bytes counted, held in the
    message buffer), and a second [final] writes a digest. *)
Lemma update_after_final_not_rejected :
  let g1 := Hash_Final (init 256 boot) in
  let g2 := update abc g1 in
  sctx g2 <> sctx g1 /\
  ctx_length (sctx g1) = 0 /\ ctx_length (sctx g2) = 3 /\
  firstn 3 (bytes_of_words (ctx_message (sctx g2))) = abc /\
  List.length (final g2) = 32%nat.
Proof.
  cbv zeta. split.
  - intros H. apply (f_equal ctx_length) in H. vm_compute in H. discriminate H.
  - vm_compute. repeat split; reflexivity.
Qed.

(** C9 (amended). The source has no size check: [Hash_Update] adds the
    chunk length to the 64-bit byte counter modulo [2^64], and the bit
    count [Hash_Final] stores in the last eight bytes of the final block is
    [8 * counter] modulo [2^64]. *)
Theorem length_counter_wraps data g :
  wf_ctx (sctx g) -> chunk_ok data ->
  ctx_length (sctx (update data g)) =
    (ctx_length (sctx g) + Z.of_nat (List.length data)) mod 2 ^ 64 /\
  bytes_of_words (skipn 14 (ctx_message (sctx (Hash_Final g)))) =
    be64 ((8 * ctx_length (sctx g)) mod 2 ^ 64).
Proof.
  exact (length_counter_wraps_aux data g).
Qed.

Lemma length_counter_wraps_witness :
  ctx_length (sctx (update abc (init 256 boot))) =
    (ctx_length (sctx (init 256 boot)) + 3) mod 2 ^ 64.
Proof.
  apply (length_counter_wraps abc (init 256 boot)).
  - apply init_wf, boot_wf.
  - apply chunk_ok_abc.
Defined.

(** C9, as stated, fails: [2^38] updates of a full 8 MiB buffer are all
    accepted; the counter then stands at [2^61] bytes, one more byte is
    accepted as well, and [Hash_Final] at [2^61] bytes stores the bit count
    zero: the count has wrapped. *)
Lemma input_too_large_not_raised :
  let g := N.iter (2 ^ 38) (update big_chunk) (init 256 boot) in
  ctx_length (sctx g) = 2 ^ 61 /\
  ctx_length (sctx (update [0] g)) = 2 ^ 61 + 1 /\
  bytes_of_words (skipn 14 (ctx_message (sctx (Hash_Final g)))) =
    [0; 0; 0; 0; 0; 0; 0; 0].
Proof.
  cbv zeta.
  destruct (absorb_big (2 ^ 38) (init 256 boot) (init_wf 256 boot boot_wf))
    as [Hw Hl].
  assert (E : ctx_length (sctx (N.iter (2 ^ 38) (update big_chunk) (init 256 boot)))
              = 2 ^ 61).
  { rewrite Hl. reflexivity. }
  assert (Hc : chunk_ok [0]) by (apply chunk_check; reflexivity).
  split; [exact E|]. split.
  - destruct (length_counter_wraps_aux [0] _ Hw Hc) as [E1 _].
    rewrite E1, E. reflexivity.
  - destruct (length_counter_wraps_aux [0] _ Hw Hc) as [_ E2].
    rewrite E2, E. reflexivity.
Qed.

(** C10. [Hash_Init] returns 0 for every argument; every argument other
    than 224 sets up SHA-256 (its eight initial words, digest length 32,
    counter 0), and 224 alone sets up SHA-224. Neither touches the message
    buffer or the staging buffer. *)
Theorem Hash_Init_variants bits g :
  List.length (ctx_hash (sctx g)) = 8%nat ->
  fst (Hash_Init bits g) = 0 /\
  (bits <> 224 ->
   sctx (snd (Hash_Init bits g)) =
     Ctx (ctx_message (sctx g)) 0 SHA256_H0 32) /\
  (bits = 224 ->
   sctx (snd (Hash_Init bits g)) =
     Ctx (ctx_message (sctx g)) 0 SHA224_H0 28) /\
  main_buffer (snd (Hash_Init bits g)) = main_buffer g.
Proof.
  intros Hh. unfold Hash_Init.
  destruct (Z.eqb_spec bits 224) as [E|E]; cbn [fst snd sctx main_buffer];
    unfold sha224_init, sha256_init; rewrite copy_h0_eq by (auto; reflexivity);
    repeat split; try reflexivity; intros; congruence.
Qed.

Lemma Hash_Init_variants_witness :
  fst (Hash_Init 512 boot) = 0 /\
  sctx (snd (Hash_Init 512 boot)) = Ctx (ctx_message (sctx boot)) 0 SHA256_H0 32.
Proof.
  destruct (Hash_Init_variants 512 boot eq_refl) as (H1 & H2 & _).
  split; [exact H1|]. apply H2. discriminate.
Defined.

(** * Further properties of the code *)

(** ** The engine against the specification's hash function *)

Lemma be64_u8 x : Forall is_u8 (be64 x).
Proof. unfold be64, is_u8. repeat constructor; apply Z.mod_pos_bound; lia. Qed.

Lemma zeros_u8 n : Forall is_u8 (repeat 0 n).
Proof. induction n; constructor; auto using is_u8_0. Qed.

Lemma fips_compress_u32 h b : Forall is_u32 (Fips.compress h b).
Proof.
  unfold Fips.compress.
  destruct (Fips.rounds _ _ _) as [[[[[[[a b0] c] d] e] f] g] h'].
  repeat constructor; apply Z.mod_pos_bound; lia.
Qed.

Lemma firstn_u8 n (l : list Z) : Forall is_u8 l -> Forall is_u8 (firstn n l).
Proof.
  intros H. revert n. induction H as [|x l Hx _ IH]; intros [|n]; cbn [firstn];
    constructor; auto.
Qed.

Lemma skipn_u8 n (l : list Z) : Forall is_u8 l -> Forall is_u8 (skipn n l).
Proof.
  intros H. revert n. induction H as [|x l Hx Hl IH]; intros [|n]; cbn [skipn];
    auto.
Qed.

Lemma compress_fips h b :
  Forall is_u32 h -> Forall is_u8 b -> List.length b = 64%nat ->
  compress h b = Fips.compress h b.
Proof. exact (process_block_refines h b). Qed.

Lemma fold_blocks_S (f : list Z -> list Z -> list Z) n X h :
  fold_left f (blocks (S n) X) h =
  fold_left f (blocks n (skipn 64 X)) (f h (firstn 64 X)).
Proof. reflexivity. Qed.

(** On whole blocks of bytes the two compression functions fold alike. *)
Lemma fold_compress_fips n : forall X h,
  Forall is_u32 h -> Forall is_u8 X -> (64 * n <= List.length X)%nat ->
  fold_left compress (blocks n X) h = fold_left Fips.compress (blocks n X) h.
Proof.
  induction n as [|n IH]; intros X h Hh HX Hn; [reflexivity|].
  rewrite !fold_blocks_S.
  rewrite compress_fips;
    [|exact Hh|apply firstn_u8, HX|rewrite length_firstn; lia].
  apply IH; [apply fips_compress_u32|apply skipn_u8, HX|rewrite length_skipn; lia].
Qed.

Lemma zero_pad_mod L : zero_pad (L mod 64) = zero_pad L.
Proof.
  unfold zero_pad. rewrite Nat2Z.inj_mod. change (Z.of_nat 64) with 64.
  now rewrite Zminus_mod_idemp_r.
Qed.

Lemma zero_pad_fill L : ((L + 1 + zero_pad L + 8) mod 64 = 0)%nat.
Proof.
  unfold zero_pad.
  pose proof (Z.mod_pos_bound (55 - Z.of_nat L) 64 ltac:(lia)) as Hb.
  apply Nat2Z.inj. rewrite Nat2Z.inj_mod, !Nat2Z.inj_add, Z2Nat.id by lia.
  change (Z.of_nat 64) with 64. change (Z.of_nat 1) with 1. change (Z.of_nat 8) with 8.
  change (Z.of_nat 0) with 0.
  replace (Z.of_nat L + 1 + (55 - Z.of_nat L) mod 64 + 8)
    with ((55 - Z.of_nat L) mod 64 + (Z.of_nat L + 9)) by lia.
  rewrite Z.add_mod_idemp_l by lia.
  replace (55 - Z.of_nat L + (Z.of_nat L + 9)) with (1 * 64) by lia.
  apply Z.mod_mul. lia.
Qed.

Lemma fips_pad_length m : (List.length (fips_pad m) mod 64 = 0)%nat.
Proof.
  unfold fips_pad. rewrite !length_app, repeat_length. cbn [List.length be64].
  etransitivity; [|apply (zero_pad_fill (List.length m))]. f_equal. lia.
Qed.

Lemma fips_pad_u8 m : Forall is_u8 m -> Forall is_u8 (fips_pad m).
Proof.
  intros Hm. unfold fips_pad. repeat (apply Forall_app; split);
    auto using zeros_u8, be64_u8.
  repeat constructor; unfold is_u8; lia.
Qed.

(** [sha2] is the specification's digest for messages below [2^61] bytes. *)
Lemma sha2_fips bits m :
  Forall is_u8 m -> Z.of_nat (List.length m) < 2 ^ 61 ->
  sha2 (H0_of bits) (Z.to_nat (digest_length_of bits)) m = fips_digest bits m.
Proof.
  intros Hm Hlen. unfold sha2, fips_digest. do 2 f_equal.
  assert (Hp : padded (pending m) (Z.of_nat (List.length m) mod 2 ^ 64)
               = pending m ++ [0x80] ++ repeat 0 (zero_pad (List.length m))
                   ++ be64 (8 * Z.of_nat (List.length m))).
  { unfold padded. rewrite pending_length, zero_pad_mod.
    rewrite (Z.mod_small (Z.of_nat (List.length m))) by lia.
    rewrite Z.mod_small by lia. reflexivity. }
  rewrite Hp.
  destruct (hash_blocks_app (H0_of bits) m
              ([0x80] ++ repeat 0 (zero_pad (List.length m))
                 ++ be64 (8 * Z.of_nat (List.length m)))) as [E _].
  rewrite <- E. fold (fips_pad m). unfold hash_blocks.
  apply fold_compress_fips; [apply H0_u32|apply fips_pad_u8, Hm|].
  pose proof (Nat.div_mod_eq (List.length (fips_pad m)) 64) as D.
  rewrite fips_pad_length in D. lia.
Qed.

Lemma concat_u8 (cs : list (list Z)) :
  Forall chunk_ok cs -> Forall is_u8 (List.concat cs).
Proof.
  induction 1 as [|c cs [Hc _] _ IH]; [constructor|].
  cbn [List.concat]. apply Forall_app. auto.
Qed.

(** X1. Functional correctness: for a message of fewer than [2^61] bytes
    fed in any chunks, the digest read back is the specification's
    SHA-256 (or SHA-224) digest of the concatenated message. *)
Theorem engine_computes_fips bits (chunks : list (list Z)) g :
  wf_ctx (sctx g) -> Forall chunk_ok chunks ->
  Z.of_nat (List.length (List.concat chunks)) < 2 ^ 61 ->
  final (updates chunks (init bits g)) = fips_digest bits (List.concat chunks).
Proof.
  intros Hw Hc Hl. rewrite engine_correct by assumption.
  apply sha2_fips; [apply concat_u8, Hc|exact Hl].
Qed.

Lemma engine_computes_fips_witness :
  final (updates [[97]; []; [98; 99]] (init 224 boot)) =
  fips_digest 224 (List.concat [[97]; []; [98; 99]]).
Proof.
  apply engine_computes_fips.
  - exact boot_wf.
  - apply chunks_check. reflexivity.
  - reflexivity.
Defined.

(** X2. The digest depends on the variant and on the concatenated message
    only: not on how the message is cut into chunks, and not on the state
    before [init] (stale message buffer, counter and hash of an earlier
    run, contents of the staging buffer). *)
Theorem digest_depends_on_message_only bits cs1 cs2 g1 g2 :
  wf_ctx (sctx g1) -> wf_ctx (sctx g2) ->
  Forall chunk_ok cs1 -> Forall chunk_ok cs2 ->
  List.concat cs1 = List.concat cs2 ->
  final (updates cs1 (init bits g1)) = final (updates cs2 (init bits g2)).
Proof.
  intros Hw1 Hw2 H1 H2 E. rewrite !engine_correct by assumption. now rewrite E.
Qed.

Lemma digest_depends_on_message_only_witness :
  final (updates [[97; 98]; [99]] (init 256 boot)) =
  final (updates [[97]; [98; 99]]
           (init 256 (Hash_Final (update abc (init 224 boot))))).
Proof.
  apply digest_depends_on_message_only.
  - exact boot_wf.
  - apply Hash_Final_wf, update_wf; [apply init_wf, boot_wf|apply chunk_ok_abc].
  - apply chunks_check. reflexivity.
  - apply chunks_check. reflexivity.
  - reflexivity.
Defined.

Lemma sha2_length h0 len m :
  List.length h0 = 8%nat -> (len <= 32)%nat -> List.length (sha2 h0 len m) = len.
Proof.
  intros Hh Hl. unfold sha2.
  rewrite length_firstn, serialize_length.
  rewrite hash_blocks_length by (apply hash_blocks_length, Hh). lia.
Qed.

(** X3. The digest read back has 28 bytes after [Hash_Init(224)] and 32
    bytes after [Hash_Init] with any other argument, and every byte of it is
    in [0, 256). *)
Theorem digest_size bits (chunks : list (list Z)) g :
  wf_ctx (sctx g) -> Forall chunk_ok chunks ->
  List.length (final (updates chunks (init bits g))) =
    (if bits =? 224 then 28%nat else 32%nat) /\
  Forall is_u8 (final (updates chunks (init bits g))).
Proof.
  intros Hw Hc. rewrite engine_correct by assumption. split.
  - rewrite sha2_length.
    + unfold digest_length_of. now destruct (bits =? 224).
    + unfold H0_of. now destruct (bits =? 224).
    + pose proof (digest_length_range bits). lia.
  - unfold sha2. apply firstn_u8. unfold serialize.
    apply Forall_forall. intros x Hx. apply in_flat_map in Hx.
    destruct Hx as (w & _ & Hx). unfold be_bytes in Hx. unfold is_u8.
    cbn [In] in Hx. change (2 ^ 8) with 256.
    destruct Hx as [<-|[<-|[<-|[<-|[]]]]]; apply Z.mod_pos_bound; lia.
Qed.

Lemma digest_size_witness :
  List.length (final (updates [abc] (init 224 boot))) = 28%nat /\
  Forall is_u8 (final (updates [abc] (init 224 boot))).
Proof.
  apply (digest_size 224 [abc] boot).
  - exact boot_wf.
  - apply chunks_check. reflexivity.
Defined.

(** ** Edge behaviour of the exported functions *)

Lemma index_range n : 0 <= Z.land (u32 n) 63 < 64.
Proof.
  change 63 with (Z.ones 6). rewrite Z.land_ones by lia. apply Z.mod_pos_bound. lia.
Qed.

(** X4. [Hash_Update(0)] changes nothing: neither the context nor the
    staging buffer; and no [Hash_Update] ever writes to the staging
    buffer. *)
Theorem update_zero_size g size :
  is_u64 (ctx_length (sctx g)) ->
  Hash_Update 0 g = g /\ main_buffer (Hash_Update size g) = main_buffer g.
Proof.
  intros Hn. split.
  - unfold Hash_Update. rewrite Z.add_0_r. unfold u64. rewrite Z.mod_small by exact Hn.
    pose proof (index_range (ctx_length (sctx g))) as Hi.
    destruct g as [buf [message len hash dl]].
    cbn [sctx main_buffer ctx_message ctx_length ctx_hash ctx_digest_length] in *.
    destruct (Z.eqb_spec (Z.land (u32 len) 63) 0) as [E|E].
    + reflexivity.
    + unfold sha256_block_size.
      destruct (Z.ltb_spec 0 (64 - Z.land (u32 len) 63)); [reflexivity|lia].
  - unfold Hash_Update.
    destruct (Z.land (u32 (ctx_length (sctx g))) 63 =? 0); [reflexivity|].
    destruct (size <? sha256_block_size - Z.land (u32 (ctx_length (sctx g))) 63);
      reflexivity.
Qed.

Lemma update_zero_size_witness :
  Hash_Update 0 (update abc (init 256 boot)) = update abc (init 256 boot).
Proof.
  apply (update_zero_size (update abc (init 256 boot)) 0).
  apply (update_wf abc (init 256 boot)); [apply init_wf, boot_wf|apply chunk_ok_abc].
Defined.

(** X5. [Hash_Final] writes [digest_length] bytes at the start of the
    staging buffer and nothing beyond them, and it leaves the byte counter
    and the digest length of the context as they were. *)
Theorem Hash_Final_frame g j :
  (Z.to_nat (ctx_digest_length (sctx g)) <= j)%nat ->
  main_buffer (Hash_Final g) j = main_buffer g j /\
  ctx_length (sctx (Hash_Final g)) = ctx_length (sctx g) /\
  ctx_digest_length (sctx (Hash_Final g)) = ctx_digest_length (sctx g).
Proof.
  intros Hj. rewrite Hash_Final_eq.
  cbn [main_buffer sctx ctx_length ctx_digest_length]. split; [|auto].
  rewrite write_digest_at.
  destruct (Nat.ltb_spec j (Z.to_nat (ctx_digest_length (sctx g)))); [lia|reflexivity].
Qed.

Lemma Hash_Final_frame_witness :
  main_buffer (Hash_Final (host_write (repeat 7 40) (init 224 boot))) 28%nat = 7.
Proof.
  destruct (Hash_Final_frame (host_write (repeat 7 40) (init 224 boot)) 28
              ltac:(vm_compute; lia)) as [H _].
  rewrite H. reflexivity.
Defined.

(** X6. The exported functions keep the context within its C types:
    sixteen and eight words below [2^32] and a counter below [2^64]. *)
Theorem context_stays_well_formed bits data g :
  wf_ctx (sctx g) -> chunk_ok data ->
  wf_ctx (sctx (snd (Hash_Init bits g))) /\
  wf_ctx (sctx (Hash_Update (Z.of_nat (List.length data)) (host_write data g))) /\
  wf_ctx (sctx (Hash_Final g)).
Proof.
  intros Hw Hd. split; [apply (init_wf bits g Hw)|].
  split; [apply (update_wf data g Hw Hd)|apply Hash_Final_wf, Hw].
Qed.

Lemma context_stays_well_formed_witness :
  wf_ctx (sctx (Hash_Final boot)).
Proof.
  apply (context_stays_well_formed 256 abc boot); [exact boot_wf|apply chunk_ok_abc].
Defined.

(** X7. An update that does not complete the pending block compresses
    nothing: the hash words stay as they are and the chunk is appended to
    the pending bytes in the message buffer. *)
Theorem update_within_block data g :
  let c := sctx g in
  let L := Z.to_nat (ctx_length c mod 64) in
  let c' := sctx (update data g) in
  wf_ctx c -> chunk_ok data -> (L + List.length data < 64)%nat ->
  ctx_hash c' = ctx_hash c /\
  firstn (L + List.length data) (bytes_of_words (ctx_message c')) =
    firstn L (bytes_of_words (ctx_message c)) ++ data.
Proof.
  intros c L c' (H1 & H2 & H3 & H4 & H5) Hd Hs.
  destruct (Hash_Update_spec data g H1 H2 H3 Hd) as (E1 & E2 & _).
  fold c in E1, E2. fold L in E1, E2. fold c' in E1, E2.
  set (p := firstn L (bytes_of_words (ctx_message c))) in *.
  assert (Hp : List.length p = L).
  { unfold p. rewrite length_firstn, bytes_of_words_length, H1.
    assert (0 <= ctx_length c mod 64 < 64) by (apply Z.mod_pos_bound; lia).
    unfold L. lia. }
  assert (Hpd : (List.length (p ++ data) < 64)%nat) by (rewrite length_app; lia).
  rewrite hash_blocks_short in E1 by exact Hpd.
  rewrite pending_short in E2 by exact Hpd.
  rewrite length_app, Hp in E2. auto.
Qed.

Lemma update_within_block_witness :
  ctx_hash (sctx (update abc (init 256 boot))) = ctx_hash (sctx (init 256 boot)).
Proof.
  apply (update_within_block abc (init 256 boot)).
  - apply init_wf, boot_wf.
  - apply chunk_ok_abc.
  - vm_compute. lia.
Defined.

(** ** The macros *)

(** X8. The optimized [Ch] and [Maj] are the functions their comments in
    the source give: [(x & y) | (~x & z)] and
    [(x & y) ^ (x & z) ^ (y & z)]. *)
Theorem Ch_Maj_as_documented x y z :
  Ch x y z = Z.lor (Z.land x y) (Z.land (Z.lnot x) z) /\
  Maj x y z = Z.lxor (Z.lxor (Z.land x y) (Z.land x z)) (Z.land y z).
Proof. unfold Ch, Maj. split; Z.bitblast. Qed.

(** X9. [ROTR32] is a rotation of the 32-bit word: bit [i] of the result is
    bit [(i + n) mod 32] of the argument, the result is a 32-bit word, and
    rotating on by [32 - n] gives the argument back. *)
Theorem ROTR32_rotates x n :
  is_u32 x -> 0 < n < 32 ->
  is_u32 (ROTR32 x n) /\
  (forall i, 0 <= i < 32 ->
     Z.testbit (ROTR32 x n) i = Z.testbit x ((i + n) mod 32)) /\
  ROTR32 (ROTR32 x n) (32 - n) = x.
Proof.
  intros Hx Hn.
  assert (Hbits : forall i, 0 <= i ->
            Z.testbit (ROTR32 x n) i =
            if i <? 32 then Z.testbit x ((i + n) mod 32) else false).
  { intros i Hi. unfold ROTR32, shl32, u32.
    rewrite Z.lxor_spec, Z.shiftr_spec, Z.testbit_mod_pow2 by lia.
    destruct (Z.ltb_spec i 32) as [Hlt|Hge]; cbn [andb].
    - rewrite Z.shiftl_spec by lia.
      destruct (Z.lt_ge_cases (i + n) 32) as [H|H].
      + rewrite Z.mod_small by lia.
        rewrite (Z.testbit_neg_r x (i - (32 - n))) by lia. apply xorb_false_r.
      + replace ((i + n) mod 32) with (i - (32 - n)).
        2:{ replace (i + n) with (i - (32 - n) + 1 * 32) by lia.
            rewrite Z.mod_add, Z.mod_small; lia. }
        rewrite (testbit_high x 32 (i + n)) by (unfold is_u32 in Hx; lia).
        apply xorb_false_l.
    - rewrite (testbit_high x 32 (i + n)) by (unfold is_u32 in Hx; lia). reflexivity. }
  assert (Hr : is_u32 (ROTR32 x n)).
  { unfold is_u32. split.
    - apply Z.bits_iff_nonneg_ex. exists 32. intros m Hm.
      rewrite Hbits by lia. destruct (Z.ltb_spec m 32); [lia|reflexivity].
    - destruct (Z.eq_dec (ROTR32 x n) 0) as [->|Hne]; [lia|].
      assert (Hnn : 0 <= ROTR32 x n).
      { apply Z.bits_iff_nonneg_ex. exists 32. intros m Hm.
        rewrite Hbits by lia. destruct (Z.ltb_spec m 32); [lia|reflexivity]. }
      apply Z.log2_lt_pow2; [lia|].
      destruct (Z.lt_ge_cases (Z.log2 (ROTR32 x n)) 32) as [H|H]; [exact H|].
      pose proof (Z.bit_log2 (ROTR32 x n) ltac:(lia)) as Hb.
      rewrite Hbits in Hb by lia.
      destruct (Z.ltb_spec (Z.log2 (ROTR32 x n)) 32); [lia|discriminate]. }
  split; [exact Hr|]. split.
  - intros i Hi. rewrite Hbits by lia. destruct (Z.ltb_spec i 32); [reflexivity|lia].
  - apply Z.bits_inj'. intros i Hi.
    unfold ROTR32 at 1. unfold shl32, u32.
    rewrite Z.lxor_spec, Z.shiftr_spec, Z.testbit_mod_pow2 by lia.
    destruct (Z.ltb_spec i 32) as [Hlt|Hge]; cbn [andb].
    + rewrite Z.shiftl_spec by lia.
      replace (32 - (32 - n)) with n by lia.
      destruct (Z.lt_ge_cases i n) as [H|H].
      * rewrite (Z.testbit_neg_r _ (i - n)) by lia. rewrite xorb_false_r.
        rewrite Hbits by lia.
        destruct (Z.ltb_spec (i + (32 - n)) 32); [|lia].
        f_equal. replace (i + (32 - n) + n) with (i + 1 * 32) by lia.
        rewrite Z.mod_add, Z.mod_small; lia.
      * rewrite (testbit_high _ 32 (i + (32 - n))) by (unfold is_u32 in Hr; lia).
        rewrite xorb_false_l, Hbits by lia.
        destruct (Z.ltb_spec (i - n) 32); [|lia].
        f_equal. replace (i - n + n) with i by lia. apply Z.mod_small. lia.
    + rewrite (testbit_high _ 32 (i + (32 - n))) by (unfold is_u32 in Hr; lia).
      rewrite (testbit_high x 32 i) by (unfold is_u32 in Hx; lia). reflexivity.
Qed.

Lemma ROTR32_rotates_witness :
  ROTR32 (ROTR32 0x6a09e667 7) (32 - 7) = 0x6a09e667.
Proof.
  apply (ROTR32_rotates 0x6a09e667 7); unfold is_u32; lia.
Defined.

Lemma copy_in_ext buf1 buf2 msg index n message :
  (forall i, (i < n)%nat -> buf1 (msg + i)%nat = buf2 (msg + i)%nat) ->
  copy_in buf1 msg index n message = copy_in buf2 msg index n message.
Proof.
  unfold copy_in. induction n as [|n IH]; intros H; [reflexivity|].
  rewrite seq_S, !fold_left_app. cbn [fold_left Nat.add].
  rewrite IH by (intros; apply H; lia). now rewrite H by lia.
Qed.

Lemma block_at_ext buf1 buf2 msg :
  (forall i, (i < 64)%nat -> buf1 (msg + i)%nat = buf2 (msg + i)%nat) ->
  block_at buf1 msg = block_at buf2 msg.
Proof.
  intros H. unfold block_at. f_equal. apply map_ext_in.
  intros i Hi. apply in_seq in Hi. apply H. lia.
Qed.

Lemma full_blocks_ext buf1 buf2 fuel : forall hash msg size,
  (forall i, Z.of_nat i < size -> buf1 (msg + i)%nat = buf2 (msg + i)%nat) ->
  full_blocks fuel buf1 hash msg size = full_blocks fuel buf2 hash msg size.
Proof.
  induction fuel as [|fuel IH]; intros hash msg size H; [reflexivity|].
  cbn [full_blocks]. unfold sha256_block_size.
  destruct (Z.leb_spec 64 size) as [Hge|Hlt]; [|reflexivity].
  rewrite (block_at_ext buf1 buf2 msg) by (intros; apply H; lia).
  apply IH. intros i Hi. rewrite <- !Nat.add_assoc. apply H. lia.
Qed.

(** The read pointer and the size on leaving the block loop. *)
Lemma full_blocks_bounds buf fuel : forall hash msg size,
  let r := full_blocks fuel buf hash msg size in
  Z.of_nat (snd (fst r)) + snd r = Z.of_nat msg + size /\
  (msg <= snd (fst r))%nat.
Proof.
  induction fuel as [|fuel IH]; intros hash msg size; cbn [full_blocks].
  - cbn [fst snd]. lia.
  - unfold sha256_block_size. destruct (Z.leb_spec 64 size) as [Hge|Hlt].
    + specialize (IH (sha256_process_block hash (block_at buf msg))
                     (msg + 64)%nat (size - 64)).
      cbv zeta in IH. lia.
    + cbn [fst snd]. lia.
Qed.

Lemma update_rest_ext buf1 buf2 c msg size :
  (forall i, Z.of_nat i < size -> buf1 (msg + i)%nat = buf2 (msg + i)%nat) ->
  update_rest buf1 c msg size = update_rest buf2 c msg size.
Proof.
  intros H. unfold update_rest.
  rewrite (full_blocks_ext buf1 buf2) by exact H.
  pose proof (full_blocks_bounds buf2 (Z.to_nat (size / 64)) (ctx_hash c) msg size) as B.
  cbv zeta in B.
  destruct (full_blocks (Z.to_nat (size / 64)) buf2 (ctx_hash c) msg size)
    as [[hash' msg'] size'].
  cbn [fst snd] in B. destruct (size' =? 0); [reflexivity|].
  f_equal. apply copy_in_ext. intros i Hi.
  replace (msg' + i)%nat with (msg + (msg' - msg + i))%nat by lia.
  apply H. lia.
Qed.

(** X10. [Hash_Update(size)] reads the first [size] bytes of the staging
    buffer and no others: whatever lies beyond them has no influence on the
    context it leaves. *)
Theorem Hash_Update_reads_size_bytes size g1 g2 :
  sctx g1 = sctx g2 ->
  (forall i, Z.of_nat i < size -> main_buffer g1 i = main_buffer g2 i) ->
  sctx (Hash_Update size g1) = sctx (Hash_Update size g2).
Proof.
  intros Hc Hb. unfold Hash_Update. rewrite Hc.
  pose proof (index_range (ctx_length (sctx g2))) as Hi.
  destruct (Z.eqb_spec (Z.land (u32 (ctx_length (sctx g2))) 63) 0) as [E|E];
    cbn [sctx].
  - apply update_rest_ext. exact Hb.
  - unfold sha256_block_size.
    cbn [ctx_message ctx_length ctx_hash ctx_digest_length].
    set (index := Z.land (u32 (ctx_length (sctx g2))) 63) in *.
    destruct (Z.ltb_spec size (64 - index)) as [Hlt|Hge]; cbn [sctx].
    + f_equal. apply copy_in_ext. intros i Hl. apply Hb. lia.
    + rewrite (copy_in_ext (main_buffer g1) (main_buffer g2)) by (intros; apply Hb; lia).
      apply update_rest_ext. intros i Hl. apply Hb. lia.
Qed.

Lemma Hash_Update_reads_size_bytes_witness :
  sctx (Hash_Update 3 (host_write [97; 98; 99; 1; 2] (init 256 boot))) =
  sctx (Hash_Update 3 (host_write [97; 98; 99] (init 256 boot))).
Proof.
  apply Hash_Update_reads_size_bytes; [reflexivity|].
  intros i Hi. cbn [host_write main_buffer].
  destruct i as [|[|[|i]]]; [reflexivity..|lia].
Defined.

(** ** The memory helpers *)

Lemma memcpy_at cnt : forall mem dst src j,
  (dst <= src \/ src + cnt <= dst)%nat ->
  memcpy mem dst src cnt j =
  if ((dst <=? j) && (j <? dst + cnt))%nat then mem (src + (j - dst))%nat else mem j.
Proof.
  induction cnt as [|cnt IH]; intros mem dst src j H; cbn [memcpy].
  - destruct (Nat.leb_spec dst j), (Nat.ltb_spec j (dst + 0)); cbn [andb];
      try reflexivity; lia.
  - rewrite IH by lia. unfold poke.
    destruct (Nat.leb_spec (S dst) j), (Nat.ltb_spec j (S dst + cnt)); cbn [andb].
    + destruct (Nat.eqb_spec (S src + (j - S dst)) dst); [lia|].
      destruct (Nat.leb_spec dst j), (Nat.ltb_spec j (dst + S cnt)); cbn [andb];
        try lia. f_equal. lia.
    + destruct (Nat.eqb_spec j dst); [lia|].
      destruct (Nat.leb_spec dst j), (Nat.ltb_spec j (dst + S cnt)); cbn [andb];
        try lia; reflexivity.
    + destruct (Nat.eqb_spec j dst) as [->|].
      * destruct (Nat.leb_spec dst dst), (Nat.ltb_spec dst (dst + S cnt)); cbn [andb];
          try lia. f_equal. lia.
      * destruct (Nat.leb_spec dst j), (Nat.ltb_spec j (dst + S cnt)); cbn [andb];
          try lia; reflexivity.
    + lia.
Qed.

(** X11. [memcpy(dst, src, cnt)] copies forward byte by byte: when the
    destination does not start inside the source ([dst <= src], or the
    source ends at or before [dst]), byte [dst + i] becomes what byte
    [src + i] was, for [i < cnt], and every other byte is left alone. *)
Theorem memcpy_copies mem dst src cnt :
  (dst <= src \/ src + cnt <= dst)%nat ->
  (forall i, (i < cnt)%nat -> memcpy mem dst src cnt (dst + i)%nat = mem (src + i)%nat) /\
  (forall j, (j < dst \/ dst + cnt <= j)%nat -> memcpy mem dst src cnt j = mem j).
Proof.
  intros H. split.
  - intros i Hi. rewrite memcpy_at by exact H.
    destruct (Nat.leb_spec dst (dst + i)), (Nat.ltb_spec (dst + i) (dst + cnt));
      cbn [andb]; try lia. f_equal. lia.
  - intros j Hj. rewrite memcpy_at by exact H.
    destruct (Nat.leb_spec dst j), (Nat.ltb_spec j (dst + cnt)); cbn [andb];
      try lia; reflexivity.
Qed.

Lemma memcpy_copies_witness :
  memcpy (fun a => Z.of_nat a) 10 12 4 (10 + 3)%nat = Z.of_nat (12 + 3).
Proof. apply (memcpy_copies (fun a => Z.of_nat a) 10 12 4); lia. Defined.

(** X12. [memset(dst, value, cnt)] sets the [cnt] bytes from [dst] to
    [value] and leaves every other byte alone; with [cnt = 0] it changes
    nothing. *)
Theorem memset_fills cnt : forall mem dst value j,
  memset mem dst value cnt j =
  if ((dst <=? j) && (j <? dst + cnt))%nat then value else mem j.
Proof.
  induction cnt as [|cnt IH]; intros mem dst value j; cbn [memset].
  - destruct (Nat.leb_spec dst j), (Nat.ltb_spec j (dst + 0)); cbn [andb];
      try reflexivity; lia.
  - rewrite IH. unfold poke.
    destruct (Nat.leb_spec (S dst) j), (Nat.ltb_spec j (S dst + cnt)),
             (Nat.leb_spec dst j), (Nat.ltb_spec j (dst + S cnt)),
             (Nat.eqb_spec j dst); cbn [andb]; try lia; reflexivity.
Qed.

Lemma move64_at mem dst src j :
  move64 mem dst src j =
  if ((dst <=? j) && (j <? dst + 8))%nat then mem (src + (j - dst))%nat else mem j.
Proof. reflexivity. Qed.

Lemma memcpy2_words_at fuel : forall mem dst src cnt,
  (dst <= src \/ src + cnt <= dst)%nat -> (cnt / 8 <= fuel)%nat ->
  let r := memcpy2_words fuel mem dst src cnt in
  let n := (8 * (cnt / 8))%nat in
  snd r = (cnt mod 8)%nat /\ snd (fst r) = (src + n)%nat /\
  snd (fst (fst r)) = (dst + n)%nat /\
  forall j, fst (fst (fst r)) j =
    if ((dst <=? j) && (j <? dst + n))%nat then mem (src + (j - dst))%nat else mem j.
Proof.
  induction fuel as [|fuel IH]; intros mem dst src cnt H Hf; cbn [memcpy2_words].
  - assert (Hs : (cnt < 8)%nat) by (apply Nat.div_small_iff; lia).
    rewrite Nat.div_small, Nat.mod_small by exact Hs. cbn [fst snd].
    repeat split; try lia. intros j.
    destruct (Nat.leb_spec dst j), (Nat.ltb_spec j (dst + 8 * 0)); cbn [andb];
      try reflexivity; lia.
  - destruct (Nat.leb_spec 8 cnt) as [Hge|Hlt].
    + assert (Hd : cnt = (1 * 8 + (cnt - 8))%nat) by lia.
      assert (Hq : (cnt / 8 = 1 + (cnt - 8) / 8)%nat)
        by (rewrite Hd at 1; apply Nat.div_add_l; lia).
      assert (Hr : (cnt mod 8 = (cnt - 8) mod 8)%nat)
        by (rewrite Hd at 1; rewrite Nat.add_comm; apply Nat.Div0.mod_add).
      pose proof (Nat.div_mod_eq (cnt - 8) 8) as Hdm.
      destruct (IH (move64 mem dst src) (dst + 8)%nat (src + 8)%nat (cnt - 8)%nat
                  ltac:(lia) ltac:(lia)) as (E1 & E2 & E3 & E4).
      cbv zeta. rewrite E1, E2, E3, Hq, Hr. repeat split; try lia.
      intros j. rewrite E4, !move64_at.
      destruct (Nat.leb_spec (dst + 8) j),
               (Nat.ltb_spec j (dst + 8 + 8 * ((cnt - 8) / 8))); cbn [andb].
      * destruct (Nat.leb_spec dst (src + 8 + (j - (dst + 8)))),
                 (Nat.ltb_spec (src + 8 + (j - (dst + 8))) (dst + 8)); cbn [andb];
          try lia.
        -- destruct (Nat.leb_spec dst j),
                    (Nat.ltb_spec j (dst + 8 * (1 + (cnt - 8) / 8))); cbn [andb];
             try lia. f_equal. lia.
        -- destruct (Nat.leb_spec dst j),
                    (Nat.ltb_spec j (dst + 8 * (1 + (cnt - 8) / 8))); cbn [andb];
             try lia. f_equal. lia.
      * destruct (Nat.leb_spec dst j), (Nat.ltb_spec j (dst + 8)),
                 (Nat.ltb_spec j (dst + 8 * (1 + (cnt - 8) / 8))); cbn [andb];
          try lia; reflexivity.
      * destruct (Nat.leb_spec dst j), (Nat.ltb_spec j (dst + 8)),
                 (Nat.ltb_spec j (dst + 8 * (1 + (cnt - 8) / 8))); cbn [andb];
          try lia; reflexivity.
      * lia.
    + rewrite Nat.div_small, Nat.mod_small by exact Hlt. cbn [fst snd].
      repeat split; try lia. intros j.
      destruct (Nat.leb_spec dst j), (Nat.ltb_spec j (dst + 8 * 0)); cbn [andb];
        try reflexivity; lia.
Qed.

(** X13. [memcpy2] (eight bytes at a time, then the remainder) leaves the
    same memory as the byte loop [memcpy] whenever the destination does not
    start inside the source. *)
Theorem memcpy2_is_memcpy mem dst src cnt j :
  (dst <= src \/ src + cnt <= dst)%nat ->
  memcpy2 mem dst src cnt j = memcpy mem dst src cnt j.
Proof.
  intros H. unfold memcpy2.
  pose proof (memcpy2_words_at (cnt / 8) mem dst src cnt H (Nat.le_refl _)) as B.
  cbv zeta in B.
  destruct (memcpy2_words (cnt / 8) mem dst src cnt) as [[[mem' d'] s'] c'].
  cbn [fst snd] in B. destruct B as (-> & -> & -> & E).
  pose proof (Nat.div_mod_eq cnt 8) as Hdm.
  pose proof (Nat.mod_upper_bound cnt 8 ltac:(lia)) as Hm.
  rewrite !memcpy_at by lia. rewrite !E.
  destruct (Nat.leb_spec (dst + 8 * (cnt / 8)) j),
           (Nat.ltb_spec j (dst + 8 * (cnt / 8) + cnt mod 8)); cbn [andb].
  - destruct (Nat.leb_spec dst (src + 8 * (cnt / 8) + (j - (dst + 8 * (cnt / 8))))),
             (Nat.ltb_spec (src + 8 * (cnt / 8) + (j - (dst + 8 * (cnt / 8))))
                           (dst + 8 * (cnt / 8))); cbn [andb]; try lia.
    + destruct (Nat.leb_spec dst j), (Nat.ltb_spec j (dst + cnt)); cbn [andb];
        try lia. f_equal. lia.
    + destruct (Nat.leb_spec dst j), (Nat.ltb_spec j (dst + cnt)); cbn [andb];
        try lia. f_equal. lia.
  - destruct (Nat.leb_spec dst j), (Nat.ltb_spec j (dst + 8 * (cnt / 8))),
             (Nat.ltb_spec j (dst + cnt)); cbn [andb]; try lia; reflexivity.
  - destruct (Nat.leb_spec dst j), (Nat.ltb_spec j (dst + 8 * (cnt / 8))),
             (Nat.ltb_spec j (dst + cnt)); cbn [andb]; try lia; reflexivity.
  - lia.
Qed.

Lemma memcpy2_is_memcpy_witness :
  memcpy2 (fun a => Z.of_nat a) 10 12 21 17%nat =
  memcpy (fun a => Z.of_nat a) 10 12 21 17%nat.
Proof. apply memcpy2_is_memcpy. lia. Defined.

Lemma copy64s_at n : forall mem dst src j,
  (dst <= src \/ src + 8 * n <= dst)%nat ->
  copy64s n mem dst src j =
  if ((dst <=? j) && (j <? dst + 8 * n))%nat then mem (src + (j - dst))%nat else mem j.
Proof.
  unfold copy64s. induction n as [|n IH]; intros mem dst src j H.
  - cbn [seq fold_left].
    destruct (Nat.leb_spec dst j), (Nat.ltb_spec j (dst + 8 * 0)); cbn [andb];
      try reflexivity; lia.
  - rewrite seq_S, fold_left_app. cbn [fold_left Nat.add]. rewrite move64_at.
    rewrite !IH by lia.
    destruct (Nat.leb_spec (dst + 8 * n) j), (Nat.ltb_spec j (dst + 8 * n + 8));
      cbn [andb].
    + destruct (Nat.leb_spec dst (src + 8 * n + (j - (dst + 8 * n)))),
               (Nat.ltb_spec (src + 8 * n + (j - (dst + 8 * n))) (dst + 8 * n));
        cbn [andb]; try lia.
      * destruct (Nat.leb_spec dst j), (Nat.ltb_spec j (dst + 8 * S n)); cbn [andb];
          try lia. f_equal. lia.
      * destruct (Nat.leb_spec dst j), (Nat.ltb_spec j (dst + 8 * S n)); cbn [andb];
          try lia. f_equal. lia.
    + destruct (Nat.leb_spec dst j), (Nat.ltb_spec j (dst + 8 * n)),
               (Nat.ltb_spec j (dst + 8 * S n)); cbn [andb]; try lia; reflexivity.
    + destruct (Nat.leb_spec dst j), (Nat.ltb_spec j (dst + 8 * n)),
               (Nat.ltb_spec j (dst + 8 * S n)); cbn [andb]; try lia; reflexivity.
    + lia.
Qed.

(** X14. [memcpy16], [memcpy32] and [memcpy64] leave the same memory as
    [memcpy] with [cnt] = 16, 32 and 64, whenever the destination does not
    start inside the source. *)
Theorem fixed_copies_are_memcpy mem dst src j :
  ((dst <= src \/ src + 16 <= dst)%nat ->
   memcpy16 mem dst src j = memcpy mem dst src 16 j) /\
  ((dst <= src \/ src + 32 <= dst)%nat ->
   memcpy32 mem dst src j = memcpy mem dst src 32 j) /\
  ((dst <= src \/ src + 64 <= dst)%nat ->
   memcpy64 mem dst src j = memcpy mem dst src 64 j).
Proof.
  unfold memcpy16, memcpy32, memcpy64.
  repeat split; intros H; rewrite copy64s_at, memcpy_at by lia; reflexivity.
Qed.

Lemma fixed_copies_are_memcpy_witness :
  memcpy64 (fun a => Z.of_nat a) 0 100 63%nat =
  memcpy (fun a => Z.of_nat a) 0 100 64 63%nat.
Proof. apply (fixed_copies_are_memcpy (fun a => Z.of_nat a) 0 100 63). lia. Defined.

Lemma widen8to64_sum value :
  0 <= value < 128 ->
  widen8to64 value = value + value * 2 ^ 8 + value * 2 ^ 16 + value * 2 ^ 24.
Proof.
  intros H. unfold widen8to64.
  rewrite (lor_shiftl_add value) by lia.
  rewrite (lor_shiftl_add (value + value * 2 ^ 8)) by lia.
  rewrite lor_shiftl_add by lia. reflexivity.
Qed.

Lemma widen8to64_byte value k :
  0 <= value < 128 -> (k < 8)%nat ->
  Z.land (Z.shiftr (widen8to64 value) (8 * Z.of_nat k)) 255 =
  if (k <? 4)%nat then value else 0.
Proof.
  intros H Hk. rewrite widen8to64_sum by exact H.
  change 255 with (Z.ones 8). rewrite Z.land_ones, Z.shiftr_div_pow2 by lia.
  change (2 ^ 8) with 256. change (2 ^ 16) with 65536. change (2 ^ 24) with 16777216.
  do 8 (destruct k as [|k]; [cbn; Z.div_mod_to_equations; lia|]).
  lia.
Qed.

Lemma set64s_at n : forall mem dst value j,
  set64s n mem dst value j =
  if ((dst <=? j) && (j <? dst + 8 * n))%nat
  then Z.land (Z.shiftr (widen8to64 value) (8 * Z.of_nat ((j - dst) mod 8))) 255
  else mem j.
Proof.
  unfold set64s. induction n as [|n IH]; intros mem dst value j.
  - cbn [seq fold_left].
    destruct (Nat.leb_spec dst j), (Nat.ltb_spec j (dst + 8 * 0)); cbn [andb];
      try reflexivity; lia.
  - rewrite seq_S, fold_left_app. cbn [fold_left Nat.add]. unfold store64 at 1.
    rewrite IH.
    destruct (Nat.leb_spec (dst + 8 * n) j), (Nat.ltb_spec j (dst + 8 * n + 8));
      cbn [andb].
    + destruct (Nat.leb_spec dst j), (Nat.ltb_spec j (dst + 8 * S n)); cbn [andb];
        try lia.
      assert (E : ((j - dst) mod 8 = j - (dst + 8 * n))%nat).
      { replace (j - dst)%nat with (j - (dst + 8 * n) + n * 8)%nat by lia.
        rewrite Nat.Div0.mod_add. apply Nat.mod_small. lia. }
      now rewrite E.
    + destruct (Nat.leb_spec dst j), (Nat.ltb_spec j (dst + 8 * n)),
               (Nat.ltb_spec j (dst + 8 * S n)); cbn [andb]; try lia; reflexivity.
    + destruct (Nat.leb_spec dst j), (Nat.ltb_spec j (dst + 8 * n)),
               (Nat.ltb_spec j (dst + 8 * S n)); cbn [andb]; try lia; reflexivity.
    + lia.
Qed.

(** X15. [memset16], [memset32], [memset64] and [memset128] do not fill
    their range with [value]: [widen8to64] replicates the byte into the low
    four bytes of the 64-bit word only, so (for [value < 128]) each group of
    eight bytes becomes four bytes [value] followed by four zero bytes.
    Bytes outside the range are left alone. With [value = 0] the range is
    zeroed, as [memset] would. *)
Theorem memset_words_pattern n mem dst value j :
  0 <= value < 128 ->
  set64s n mem dst value j =
  if ((dst <=? j) && (j <? dst + 8 * n))%nat
  then (if ((j - dst) mod 8 <? 4)%nat then value else 0)
  else mem j.
Proof.
  intros H. rewrite set64s_at.
  destruct ((dst <=? j) && (j <? dst + 8 * n))%nat; [|reflexivity].
  apply widen8to64_byte; [exact H|]. apply Nat.mod_upper_bound. lia.
Qed.

Lemma memset_words_pattern_witness :
  memset64 (fun _ => 9) 0 1 4%nat = 0 /\ memset64 (fun _ => 9) 0 1 3%nat = 1.
Proof.
  split.
  - apply (memset_words_pattern 8 (fun _ => 9) 0 1 4). lia.
  - apply (memset_words_pattern 8 (fun _ => 9) 0 1 3). lia.
Defined.

(** ** Composition of updates *)

Lemma pending_index_after data g :
  wf_ctx (sctx g) -> chunk_ok data ->
  Z.to_nat (ctx_length (sctx (update data g)) mod 64) =
  ((Z.to_nat (ctx_length (sctx g) mod 64) + List.length data) mod 64)%nat.
Proof.
  intros (H1 & H2 & H3 & H4 & H5) Hd.
  destruct (Hash_Update_spec data g H1 H2 H3 Hd) as (_ & _ & _ & _ & E & _).
  rewrite E. unfold u64. change (2 ^ 64) with (64 * 2 ^ 58).
  rewrite Z.rem_mul_r, Z.mul_comm, Z.mod_add, Z.mod_mod by lia.
  assert (0 <= ctx_length (sctx g) mod 64 < 64) by (apply Z.mod_pos_bound; lia).
  apply Nat2Z.inj. rewrite Nat2Z.inj_mod, Nat2Z.inj_add, !Z2Nat.id;
    try lia; try (apply Z.mod_pos_bound; lia).
  change (Z.of_nat 64) with 64. now rewrite Z.add_mod_idemp_l by lia.
Qed.

(** X16. Updates compose from any well-formed state, not only after
    [init]: feeding [a] and then [b] leaves the same counter, the same hash
    words, the same pending bytes and the same digest length as feeding
    [a ++ b] in one call. *)
Theorem update_composes a b g :
  wf_ctx (sctx g) -> chunk_ok a -> chunk_ok b -> chunk_ok (a ++ b) ->
  let c1 := sctx (update b (update a g)) in
  let c2 := sctx (update (a ++ b) g) in
  let L := Z.to_nat (ctx_length c2 mod 64) in
  ctx_length c1 = ctx_length c2 /\ ctx_hash c1 = ctx_hash c2 /\
  firstn L (bytes_of_words (ctx_message c1)) =
    firstn L (bytes_of_words (ctx_message c2)) /\
  ctx_digest_length c1 = ctx_digest_length c2.
Proof.
  intros Hw Ha Hb Hab c1 c2 L.
  pose proof (update_wf a g Hw Ha) as Hwa.
  pose proof (pending_index_after a g Hw Ha) as Ia.
  pose proof (pending_index_after (a ++ b) g Hw Hab) as Iab.
  destruct Hw as (H1 & H2 & H3 & H4 & H5).
  destruct (Hash_Update_spec a g H1 H2 H3 Ha) as (A1 & A2 & _ & _ & A5 & A6 & _).
  destruct (Hash_Update_spec (a ++ b) g H1 H2 H3 Hab) as (C1 & C2 & _ & _ & C5 & C6 & _).
  destruct Hwa as (G1 & G2 & G3 & G4 & G5).
  destruct (Hash_Update_spec b (update a g) G1 G2 G3 Hb)
    as (B1 & B2 & _ & _ & B5 & B6 & _).
  set (p := firstn (Z.to_nat (ctx_length (sctx g) mod 64))
                   (bytes_of_words (ctx_message (sctx g)))) in *.
  assert (Hp : List.length p = Z.to_nat (ctx_length (sctx g) mod 64)).
  { unfold p. rewrite length_firstn, bytes_of_words_length, H1.
    assert (0 <= ctx_length (sctx g) mod 64 < 64) by (apply Z.mod_pos_bound; lia).
    lia. }
  assert (Hpa : firstn (Z.to_nat (ctx_length (sctx (update a g)) mod 64))
                       (bytes_of_words (ctx_message (sctx (update a g))))
                = pending (p ++ a)).
  { rewrite <- A2. f_equal. rewrite Ia, pending_length, length_app, Hp. reflexivity. }
  rewrite Hpa in B1, B2.
  destruct (hash_blocks_app (ctx_hash (sctx g)) (p ++ a) b) as [F1 F2].
  rewrite <- app_assoc in F1, F2.
  fold c1 in B1, B2, B5, B6. fold c2 in C1, C2, C5, C6.
  assert (HL : L = List.length (pending (p ++ a ++ b))).
  { unfold L, c2. rewrite Iab, pending_length, !length_app, Hp. f_equal. }
  split; [|split; [|split]].
  - rewrite B5, C5, A5. unfold u64. rewrite Z.add_mod_idemp_l by lia.
    f_equal. rewrite length_app. lia.
  - now rewrite B1, C1, A1, F1.
  - rewrite HL, C2, F2. exact B2.
  - now rewrite B6, C6, A6.
Qed.

Lemma update_composes_witness :
  ctx_hash (sctx (update (repeat 98 40) (update (repeat 97 30) (Hash_Final boot)))) =
  ctx_hash (sctx (update (repeat 97 30 ++ repeat 98 40) (Hash_Final boot))).
Proof.
  apply (update_composes (repeat 97 30) (repeat 98 40) (Hash_Final boot)).
  - apply Hash_Final_wf, boot_wf.
  - apply chunk_check; reflexivity.
  - apply chunk_check; reflexivity.
  - apply chunk_check; reflexivity.
Defined.
